(** * NGAP UE context list and slot scheduler: a shallow embedding

    Part I embeds [ngap_ue_context_list], the CU-CP store of NGAP UE
    contexts with its three hash maps (UE index, RAN-UE-ID, AMF-UE-ID), and
    proves what its identity updates, its release and its RAN-UE-ID
    allocation do to the lookups.

    Part II models the MAC slot scheduler (device contexts, contention
    resolution state machine, multiplexer, slot orchestrator) from its
    design description, and proves the contention-resolution properties
    that the scheduler tests assert. *)

From Stdlib Require Import ZArith Lia.
From stdpp Require Import base option list gmap fin_maps strings.

Local Open Scope Z_scope.

(** ** Part I: [ngap_ue_context_list] *)

Module Ngap.

(** [ue_index_t], [ran_ue_id_t] and [amf_ue_id_t] are enum classes over
    unsigned machine integers; their values are carried as [Z]. *)
Record ngap_ue_ids := mk_ngap_ue_ids {
  ue_index : Z;
  ran_ue_id : Z;
  amf_ue_id : Z
}.

(** The fields of [ngap_ue_context]. The [unique_timer] handle has no
    behaviour in the list operations and is left out; of the
    [ngap_ue_logger] only the prefix written by [set_prefix] is kept. *)
Record ngap_ue_context := mk_ngap_ue_context {
  ue_ids : ngap_ue_ids;
  aggregate_maximum_bit_rate_dl : Z;
  release_requested : bool;
  release_scheduled : bool;
  last_pdu_session_resource_modify_request : list Z;
  logger : ngap_ue_ids
}.

(** The data members of [ngap_ue_context_list]. *)
Record ngap_ue_context_list := mk_ngap_ue_context_list {
  next_ran_ue_id : Z;
  ue_index_to_ran_ue_id : gmap Z Z;
  amf_ue_id_to_ran_ue_id : gmap Z Z;
  ues : gmap Z ngap_ue_context
}.

#[global] Instance ngap_ue_ids_eq_dec : EqDecision ngap_ue_ids.
Proof. solve_decision. Defined.

#[global] Instance ngap_ue_context_eq_dec : EqDecision ngap_ue_context.
Proof. solve_decision. Defined.

(** [std::unordered_map::emplace]: inserts only when the key is absent. *)
Definition emplace {V : Type} (k : Z) (v : V) (m : gmap Z V) : gmap Z V :=
  match m !! k with
  | Some _ => m
  | None => <[k := v]> m
  end.

(** [std::unordered_map::erase] by key. *)
Definition erase {V : Type} (k : Z) (m : gmap Z V) : gmap Z V := delete k m.

(** [std::find_if] over the index map with predicate [u.second == id]. *)
Definition ran_ue_id_in_use (id : Z) (m : gmap Z Z) : bool :=
  existsb (fun u => Z.eqb (snd u) id) (map_to_list m).

(** Enumerators and limits declared in the NGAP type headers, which are
    not among the sources at hand: they are parameters of the development. *)
Class ngap_types := {
  ue_index_invalid : Z;
  ran_ue_id_min : Z;
  ran_ue_id_max : Z;
  ran_ue_id_invalid : Z;
  amf_ue_id_invalid : Z;
  MAX_NOF_RAN_UES : Z
}.

Section ngap_ue_context_list.

Context `{ngap_types}.

(** The state of a freshly constructed list. *)
Definition empty_list : ngap_ue_context_list :=
  {| next_ran_ue_id := ran_ue_id_min;
     ue_index_to_ran_ue_id := ∅;
     amf_ue_id_to_ran_ue_id := ∅;
     ues := ∅ |}.

(** The constructor of [ngap_ue_context]. *)
Definition new_ue_context (ue_index_ ran_ue_id_ : Z) : ngap_ue_context :=
  {| ue_ids := mk_ngap_ue_ids ue_index_ ran_ue_id_ amf_ue_id_invalid;
     aggregate_maximum_bit_rate_dl := 0;
     release_requested := false;
     release_scheduled := false;
     last_pdu_session_resource_modify_request := [];
     logger := mk_ngap_ue_ids ue_index_ ran_ue_id_ amf_ue_id_invalid |}.

(** *** The three [contains] overloads *)

Definition contains_ran_ue_id (l : ngap_ue_context_list) (ran : Z) : bool :=
  match ues l !! ran with
  | Some _ => true
  | None => false
  end.

Definition contains_ue_index (l : ngap_ue_context_list) (idx : Z) : bool :=
  match ue_index_to_ran_ue_id l !! idx with
  | None => false
  | Some ran =>
      match ues l !! ran with
      | None => false
      | Some _ => true
      end
  end.

Definition contains_amf_ue_id (l : ngap_ue_context_list) (amf : Z) : bool :=
  match amf_ue_id_to_ran_ue_id l !! amf with
  | None => false
  | Some ran =>
      match ues l !! ran with
      | None => false
      | Some _ => true
      end
  end.

(** *** The three [operator[]] overloads and [find]

    A failed [srsran_assert] aborts; it is [None] here. *)

Definition at_ran_ue_id (l : ngap_ue_context_list) (ran : Z)
  : option ngap_ue_context :=
  ues l !! ran.

Definition at_ue_index (l : ngap_ue_context_list) (idx : Z)
  : option ngap_ue_context :=
  match ue_index_to_ran_ue_id l !! idx with
  | None => None
  | Some ran => ues l !! ran
  end.

Definition at_amf_ue_id (l : ngap_ue_context_list) (amf : Z)
  : option ngap_ue_context :=
  match amf_ue_id_to_ran_ue_id l !! amf with
  | None => None
  | Some ran => ues l !! ran
  end.

Definition find (l : ngap_ue_context_list) (ran : Z)
  : option ngap_ue_context :=
  ues l !! ran.

Definition size (l : ngap_ue_context_list) : nat := base.size (ues l).

(** *** [add_ue]

    The reference it returns is [ues.at(ran_ue_id)], that is
    [at_ran_ue_id] of the resulting list. *)
Definition add_ue (idx ran : Z) (l : ngap_ue_context_list)
  : option ngap_ue_context_list :=
  if bool_decide (idx = ue_index_invalid) then None
  else if bool_decide (ran = ran_ue_id_invalid) then None
  else
    Some {| next_ran_ue_id := next_ran_ue_id l;
            ue_index_to_ran_ue_id := emplace idx ran (ue_index_to_ran_ue_id l);
            amf_ue_id_to_ran_ue_id := amf_ue_id_to_ran_ue_id l;
            ues := emplace ran (new_ue_context idx ran) (ues l) |}.

(** [ue.logger.set_prefix(ids)]. *)
Definition set_prefix (ids : ngap_ue_ids) (ue : ngap_ue_context)
  : ngap_ue_context :=
  {| ue_ids := ue_ids ue;
     aggregate_maximum_bit_rate_dl := aggregate_maximum_bit_rate_dl ue;
     release_requested := release_requested ue;
     release_scheduled := release_scheduled ue;
     last_pdu_session_resource_modify_request :=
       last_pdu_session_resource_modify_request ue;
     logger := ids |}.

(** [ue.ue_ids.amf_ue_id = amf] ([ran_ue_id] is a const member). *)
Definition set_amf_ue_id (amf : Z) (ue : ngap_ue_context) : ngap_ue_context :=
  {| ue_ids := mk_ngap_ue_ids (ue_index (ue_ids ue)) (ran_ue_id (ue_ids ue)) amf;
     aggregate_maximum_bit_rate_dl := aggregate_maximum_bit_rate_dl ue;
     release_requested := release_requested ue;
     release_scheduled := release_scheduled ue;
     last_pdu_session_resource_modify_request :=
       last_pdu_session_resource_modify_request ue;
     logger := logger ue |}.

(** [ue.ue_ids.ue_index = idx]. *)
Definition set_ue_index (idx : Z) (ue : ngap_ue_context) : ngap_ue_context :=
  {| ue_ids := mk_ngap_ue_ids idx (ran_ue_id (ue_ids ue)) (amf_ue_id (ue_ids ue));
     aggregate_maximum_bit_rate_dl := aggregate_maximum_bit_rate_dl ue;
     release_requested := release_requested ue;
     release_scheduled := release_scheduled ue;
     last_pdu_session_resource_modify_request :=
       last_pdu_session_resource_modify_request ue;
     logger := logger ue |}.

(** The last statement of [update_amf_ue_id]:
    [ue.logger.set_prefix({ue.ue_ids.ue_index, ran_ue_id, amf_ue_id})]. *)
Definition log_amf_ue_id (ran amf : Z) (ue : ngap_ue_context)
  : ngap_ue_context :=
  set_prefix (mk_ngap_ue_ids (ue_index (ue_ids ue)) ran amf) ue.

(** *** [update_amf_ue_id] *)
Definition update_amf_ue_id (ran amf : Z) (l : ngap_ue_context_list)
  : option ngap_ue_context_list :=
  if bool_decide (amf = amf_ue_id_invalid) then None
  else if bool_decide (ran = ran_ue_id_invalid) then None
  else
    match ues l !! ran with
    | None => None
    | Some ue =>
        if bool_decide (amf_ue_id (ue_ids ue) = amf) then
          (* already set: early return, the prefix is not rewritten *)
          Some l
        else if bool_decide (amf_ue_id (ue_ids ue) = amf_ue_id_invalid) then
          Some {| next_ran_ue_id := next_ran_ue_id l;
                  ue_index_to_ran_ue_id := ue_index_to_ran_ue_id l;
                  amf_ue_id_to_ran_ue_id :=
                    emplace amf ran (amf_ue_id_to_ran_ue_id l);
                  ues := <[ran := log_amf_ue_id ran amf (set_amf_ue_id amf ue)]>
                           (ues l) |}
        else if bool_decide (amf_ue_id (ue_ids ue) ≠ amf) then
          let old_amf_ue_id := amf_ue_id (ue_ids ue) in
          Some {| next_ran_ue_id := next_ran_ue_id l;
                  ue_index_to_ran_ue_id := ue_index_to_ran_ue_id l;
                  amf_ue_id_to_ran_ue_id :=
                    erase old_amf_ue_id
                      (emplace amf ran (amf_ue_id_to_ran_ue_id l));
                  ues := <[ran := log_amf_ue_id ran amf (set_amf_ue_id amf ue)]>
                           (ues l) |}
        else
          (* no branch of the chain taken: only the prefix is rewritten *)
          Some {| next_ran_ue_id := next_ran_ue_id l;
                  ue_index_to_ran_ue_id := ue_index_to_ran_ue_id l;
                  amf_ue_id_to_ran_ue_id := amf_ue_id_to_ran_ue_id l;
                  ues := <[ran := log_amf_ue_id ran amf ue]> (ues l) |}
    end.

(** *** [update_ue_index] *)
Definition update_ue_index (new_ue_index old_ue_index : Z)
    (l : ngap_ue_context_list) : option ngap_ue_context_list :=
  if bool_decide (new_ue_index = ue_index_invalid) then None
  else if bool_decide (old_ue_index = ue_index_invalid) then None
  else
    match ue_index_to_ran_ue_id l !! old_ue_index with
    | None => None
    | Some ran =>
        match ues l !! ran with
        | None => None
        | Some ue =>
            let ue1 := set_ue_index new_ue_index ue in
            Some {| next_ran_ue_id := next_ran_ue_id l;
                    ue_index_to_ran_ue_id :=
                      erase old_ue_index
                        (emplace new_ue_index ran (ue_index_to_ran_ue_id l));
                    amf_ue_id_to_ran_ue_id := amf_ue_id_to_ran_ue_id l;
                    ues :=
                      <[ran := set_prefix
                                 (mk_ngap_ue_ids (ue_index (ue_ids ue1)) ran
                                    (amf_ue_id (ue_ids ue1))) ue1]> (ues l) |}
        end
    end.

(** *** [remove_ue_context] *)
Definition remove_ue_context (idx : Z) (l : ngap_ue_context_list)
  : option ngap_ue_context_list :=
  if bool_decide (idx = ue_index_invalid) then None
  else
    match ue_index_to_ran_ue_id l !! idx with
    | None => Some l
    | Some ran =>
        let index_map := erase idx (ue_index_to_ran_ue_id l) in
        match ues l !! ran with
        | None =>
            Some {| next_ran_ue_id := next_ran_ue_id l;
                    ue_index_to_ran_ue_id := index_map;
                    amf_ue_id_to_ran_ue_id := amf_ue_id_to_ran_ue_id l;
                    ues := ues l |}
        | Some ue =>
            Some {| next_ran_ue_id := next_ran_ue_id l;
                    ue_index_to_ran_ue_id := index_map;
                    amf_ue_id_to_ran_ue_id :=
                      if bool_decide (amf_ue_id (ue_ids ue) ≠ amf_ue_id_invalid)
                      then erase (amf_ue_id (ue_ids ue)) (amf_ue_id_to_ran_ue_id l)
                      else amf_ue_id_to_ran_ue_id l;
                    ues := erase ran (ues l) |}
        end
    end.

(** *** [increase_next_ran_ue_id]

    [ran_ue_id_to_uint] and [uint_to_ran_ue_id] convert between the enum and
    its underlying [uint64_t]; the increment is therefore taken modulo
    [2^64]. *)
Definition increase_next_ran_ue_id (l : ngap_ue_context_list)
  : ngap_ue_context_list :=
  {| next_ran_ue_id :=
       if bool_decide (next_ran_ue_id l = ran_ue_id_max) then ran_ue_id_min
       else (next_ran_ue_id l + 1) mod 2 ^ 64;
     ue_index_to_ran_ue_id := ue_index_to_ran_ue_id l;
     amf_ue_id_to_ran_ue_id := amf_ue_id_to_ran_ue_id l;
     ues := ues l |}.

(** The counter update of [increase_next_ran_ue_id] on the value alone;
    it only serves to state how far the search has advanced. *)
Definition next_id (n : Z) : Z :=
  if bool_decide (n = ran_ue_id_max) then ran_ue_id_min
  else (n + 1) mod 2 ^ 64.

(** *** [allocate_ran_ue_id]

    The [while (true)] loop is unrolled [fuel] times; [None] means that
    the loop did not leave within that many rounds. *)
Fixpoint allocate_loop (fuel : nat) (l : ngap_ue_context_list)
  : option (Z * ngap_ue_context_list) :=
  match fuel with
  | O => None
  | S fuel' =>
      if ran_ue_id_in_use (next_ran_ue_id l) (ue_index_to_ran_ue_id l) then
        allocate_loop fuel' (increase_next_ran_ue_id l)
      else
        Some (next_ran_ue_id l, increase_next_ran_ue_id l)
  end.

Definition allocate_ran_ue_id (fuel : nat) (l : ngap_ue_context_list)
  : option (Z * ngap_ue_context_list) :=
  if bool_decide (Z.of_nat (base.size (ue_index_to_ran_ue_id l)) = MAX_NOF_RAN_UES)
  then Some (ran_ue_id_invalid, l)
  else allocate_loop fuel l.

(** *** Three-way consistency of the lookups

    Every entry of the two auxiliary maps leads to a context that carries
    the entry's key, every stored context is reachable through its own
    identifiers, and the invalid AMF-UE-ID is never a key. *)
Definition consistent (l : ngap_ue_context_list) : Prop :=
  amf_ue_id_to_ran_ue_id l !! amf_ue_id_invalid = None ∧
  map_Forall (fun idx ran => ue_index ∘ ue_ids <$> ues l !! ran = Some idx)
    (ue_index_to_ran_ue_id l) ∧
  map_Forall (fun amf ran => amf_ue_id ∘ ue_ids <$> ues l !! ran = Some amf)
    (amf_ue_id_to_ran_ue_id l) ∧
  map_Forall
    (fun ran ue =>
       ran_ue_id (ue_ids ue) = ran ∧
       ue_index_to_ran_ue_id l !! ue_index (ue_ids ue) = Some ran ∧
       (amf_ue_id (ue_ids ue) ≠ amf_ue_id_invalid →
        amf_ue_id_to_ran_ue_id l !! amf_ue_id (ue_ids ue) = Some ran))
    (ues l).

#[global] Instance consistent_dec l : Decision (consistent l).
Proof. unfold consistent. apply _. Defined.

(** *** Lists built through the public operations

    The lists reached from a freshly constructed one by calls that return
    normally, where the caller passes [add_ue] an unused UE index and an
    unused RAN-UE-ID, [update_amf_ue_id] an AMF-UE-ID that no other
    RAN-UE-ID is bound to, and [update_ue_index] an unused new UE index. *)
Inductive built : ngap_ue_context_list → Prop :=
| built_empty_list : built empty_list
| built_add_ue idx ran l l' :
    built l →
    ue_index_to_ran_ue_id l !! idx = None →
    ues l !! ran = None →
    add_ue idx ran l = Some l' →
    built l'
| built_update_amf_ue_id ran amf l l' :
    built l →
    (∀ r, amf_ue_id_to_ran_ue_id l !! amf = Some r → r = ran) →
    update_amf_ue_id ran amf l = Some l' →
    built l'
| built_update_ue_index new_ue_index old_ue_index l l' :
    built l →
    ue_index_to_ran_ue_id l !! new_ue_index = None →
    update_ue_index new_ue_index old_ue_index l = Some l' →
    built l'
| built_remove_ue_context idx l l' :
    built l →
    remove_ue_context idx l = Some l' →
    built l'
| built_allocate_ran_ue_id fuel r l l' :
    built l →
    allocate_ran_ue_id fuel l = Some (r, l') →
    built l'.

End ngap_ue_context_list.

(** *** Concrete lists *)

(** An instantiation of the enumerators used to run the operations on
    concrete lists: 16-bit UE indexes, 32-bit RAN-UE-IDs, 40-bit AMF-UE-IDs. *)
Definition example_types : ngap_types :=
  {| ue_index_invalid := 65535;
     ran_ue_id_min := 0;
     ran_ue_id_max := 4294967295;
     ran_ue_id_invalid := 8589934591;
     amf_ue_id_invalid := 1099511627775;
     MAX_NOF_RAN_UES := 4294967296 |}.

(** The same with room for two UEs only. *)
Definition tiny_types : ngap_types :=
  {| ue_index_invalid := 65535;
     ran_ue_id_min := 0;
     ran_ue_id_max := 1;
     ran_ue_id_invalid := 8589934591;
     amf_ue_id_invalid := 1099511627775;
     MAX_NOF_RAN_UES := 2 |}.

(** A context with the given identifiers, as [add_ue] followed by
    [update_amf_ue_id] leaves it. *)
Definition ue_with (idx ran amf : Z) : ngap_ue_context :=
  {| ue_ids := mk_ngap_ue_ids idx ran amf;
     aggregate_maximum_bit_rate_dl := 0;
     release_requested := false;
     release_scheduled := false;
     last_pdu_session_resource_modify_request := [];
     logger := mk_ngap_ue_ids idx ran amf |}.

(** One UE with index 1 and RAN-UE-ID 10, no AMF-UE-ID yet. *)
Definition one_ue : ngap_ue_context_list :=
  {| next_ran_ue_id := 0;
     ue_index_to_ran_ue_id := {[ 1 := 10 ]};
     amf_ue_id_to_ran_ue_id := ∅;
     ues := {[ 10 := ue_with 1 10 1099511627775 ]} |}.

(** Two UEs: (index 1, RAN-UE-ID 10, AMF-UE-ID 5) and (index 2, RAN-UE-ID
    20, no AMF-UE-ID yet). *)
Definition two_ues : ngap_ue_context_list :=
  {| next_ran_ue_id := 0;
     ue_index_to_ran_ue_id := {[ 1 := 10; 2 := 20 ]};
     amf_ue_id_to_ran_ue_id := {[ 5 := 10 ]};
     ues := {[ 10 := ue_with 1 10 5; 20 := ue_with 2 20 1099511627775 ]} |}.

(** One UE with RAN-UE-ID 10 while the counter stands at 10. *)
Definition counter_on_used_id : ngap_ue_context_list :=
  {| next_ran_ue_id := 10;
     ue_index_to_ran_ue_id := {[ 1 := 10 ]};
     amf_ue_id_to_ran_ue_id := ∅;
     ues := {[ 10 := ue_with 1 10 1099511627775 ]} |}.

(** One UE with the largest RAN-UE-ID while the counter stands there. *)
Definition counter_at_max : ngap_ue_context_list :=
  {| next_ran_ue_id := 4294967295;
     ue_index_to_ran_ue_id := {[ 1 := 4294967295 ]};
     amf_ue_id_to_ran_ue_id := ∅;
     ues := {[ 4294967295 := ue_with 1 4294967295 1099511627775 ]} |}.

(** Two UEs with RAN-UE-IDs 0 and 1. *)
Definition two_of_two : ngap_ue_context_list :=
  {| next_ran_ue_id := 0;
     ue_index_to_ran_ue_id := {[ 1 := 0; 2 := 1 ]};
     amf_ue_id_to_ran_ue_id := ∅;
     ues := {[ 0 := ue_with 1 0 1099511627775; 1 := ue_with 2 1 1099511627775 ]} |}.

End Ngap.

(** ** Part II: the slot scheduler

    The scheduler itself (device contexts, multiplexer, policy, slot
    orchestrator) is not among the sources at hand; only its
    contention-resolution tests are. The definitions of this part follow the
    design description, section by section. Sizes are byte counts in [N]. *)

Module Sched.

Local Open Scope N_scope.

(** Modelled from the spec: the states of the contention resolution state
    machine (section 4.2), which are the admission phases of a device. *)
Inductive phase := DETECTED | AWAITING_RESOLUTION | RESOLVED | RELEASED.

(** Modelled from the spec: the type tag of a control element (section 3);
    identity confirmation is the one the design names. *)
Inductive ce_type := IDENTITY_CONFIRMATION | OTHER_CE (tag : N).

(** Modelled from the spec: a logical channel (glossary): a named stream of
    bytes with its segmentation capability and its buffer occupancy. Its
    configured priority is its position in the context's channel list. *)
Record logical_channel := mk_logical_channel {
  lc_id : N;
  lc_segmentable : bool;
  lc_pending : N
}.

(** Modelled from the spec: the device context (section 3): identity
    (device index, temporary and stable address), admission phase, queue of
    pending control elements and per-channel buffer occupancy, the channels
    in configured priority order. The optional expiry timer is owned by the
    upper layer and is left out. *)
Record device_context := mk_device_context {
  device_index : N;
  temporary_address : N;
  stable_address : N;
  admission_phase : phase;
  pending_ces : list ce_type;
  channels : list logical_channel
}.

(** Modelled from the spec: the identity used for addressing in an
    assignment (section 3), temporary or stable. *)
Inductive addressing := TEMPORARY (address : N) | STABLE (address : N).

(** Modelled from the spec: the transport-block content description
    (section 3): which control elements and logical channels were
    multiplexed, with their byte counts. *)
Inductive tb_entry :=
| CE_ENTRY (ty : ce_type) (bytes : N)
| LC_ENTRY (channel : N) (bytes : N).

(** Modelled from the spec: a per-device downlink assignment of the
    allocation result (section 3); the transport block is the multiplexed
    payload of one device in one slot (glossary). *)
Record assignment := mk_assignment {
  a_device : N;
  a_addressing : addressing;
  a_tb_list : list (list tb_entry)
}.

(** Modelled from the spec: the downlink part of the per-slot allocation
    result (section 3). *)
Record allocation_result := mk_allocation_result {
  r_slot : N;
  r_downlink : list assignment
}.

(** Modelled from the spec: the error taxonomy (section 7). *)
Inductive sched_error := CapacityExceeded | InsufficientBudget | GridConflict.

(** Modelled from the spec: the inbound events that act on an admitted
    device (section 6): control-element request, buffer-state update, the
    upper layer's identity confirmation and the release request. *)
Inductive event :=
| CONTROL_ELEMENT_REQUEST (device : N) (ty : ce_type)
| BUFFER_STATE_UPDATE (device : N) (channel : N) (bytes : N)
| IDENTITY_CONFIRMED (device : N)
| RELEASE_REQUEST (device : N).

(** Modelled from the spec: what triggers a transition of section 4.2. *)
Inductive trigger :=
| CE_ENQUEUED (ty : ce_type)
| CONFIRMATION
| RELEASE.

#[global] Instance phase_eq_dec : EqDecision phase.
Proof. solve_decision. Defined.

#[global] Instance ce_type_eq_dec : EqDecision ce_type.
Proof. solve_decision. Defined.

#[global] Instance tb_entry_eq_dec : EqDecision tb_entry.
Proof. solve_decision. Defined.

(** Modelled from the spec: what the design leaves to configuration and to
    the pluggable strategy: the size of a control element, the bytes the
    grid offers in a slot once the reference-signal reservations are taken
    out (section 3), and the scheduling policy (section 4.3), which proposes
    an ordered list of (device index, byte budget). *)
Class cell_config := {
  ce_size : ce_type → N;
  slot_capacity : N → N;
  policy : N → gmap N device_context → N → list (N * N)
}.

(** Modelled from the spec: the transition rules of section 4.2. *)
Definition advance (p : phase) (t : trigger) : phase :=
  match p, t with
  | RELEASED, _ => RELEASED
  | _, RELEASE => RELEASED
  | DETECTED, CE_ENQUEUED IDENTITY_CONFIRMATION => AWAITING_RESOLUTION
  | AWAITING_RESOLUTION, CONFIRMATION => RESOLVED
  | _, _ => p
  end.

(** Modelled from the spec: [enqueue_control_element] of section 4.1
    together with the transition it triggers. *)
Definition enqueue_control_element (ty : ce_type) (ctx : device_context)
  : device_context :=
  {| device_index := device_index ctx;
     temporary_address := temporary_address ctx;
     stable_address := stable_address ctx;
     admission_phase := advance (admission_phase ctx) (CE_ENQUEUED ty);
     pending_ces := pending_ces ctx ++ [ty];
     channels := channels ctx |}.

(** Modelled from the spec: a buffer-state update sets the pending byte
    count of the named channel. *)
Definition set_pending (channel bytes : N) (lc : logical_channel)
  : logical_channel :=
  if bool_decide (lc_id lc = channel)
  then {| lc_id := lc_id lc; lc_segmentable := lc_segmentable lc;
          lc_pending := bytes |}
  else lc.

(** Modelled from the spec: [record_traffic] of section 4.1. *)
Definition record_traffic (channel bytes : N) (ctx : device_context)
  : device_context :=
  {| device_index := device_index ctx;
     temporary_address := temporary_address ctx;
     stable_address := stable_address ctx;
     admission_phase := admission_phase ctx;
     pending_ces := pending_ces ctx;
     channels := set_pending channel bytes <$> channels ctx |}.

(** Modelled from the spec: the upper layer's confirmation, which advances
    the state machine (section 6). *)
Definition confirm_identity (ctx : device_context) : device_context :=
  {| device_index := device_index ctx;
     temporary_address := temporary_address ctx;
     stable_address := stable_address ctx;
     admission_phase := advance (admission_phase ctx) CONFIRMATION;
     pending_ces := pending_ces ctx;
     channels := channels ctx |}.

(** Modelled from the spec: one drained event applied to the device context
    store. A release takes the device to RELEASED from any state, which
    releases its context and both address mappings (section 4.2). *)
Definition apply_event (ev : event) (store : gmap N device_context)
  : gmap N device_context :=
  match ev with
  | CONTROL_ELEMENT_REQUEST d ty => alter (enqueue_control_element ty) d store
  | BUFFER_STATE_UPDATE d channel bytes =>
      alter (record_traffic channel bytes) d store
  | IDENTITY_CONFIRMED d => alter confirm_identity d store
  | RELEASE_REQUEST d => delete d store
  end.

(** Modelled from the spec: the EVENT_DRAIN and STATE_ADVANCE steps of the
    slot orchestrator (section 4.5), the events taken in arrival order. *)
Definition event_drain (events : list event) (store : gmap N device_context)
  : gmap N device_context :=
  foldl (fun st ev => apply_event ev st) store events.

(** Two contexts with the same identity and phase. *)
Definition same_identity (ctx ctx' : device_context) : Prop :=
  device_index ctx' = device_index ctx ∧
  temporary_address ctx' = temporary_address ctx ∧
  stable_address ctx' = stable_address ctx ∧
  admission_phase ctx' = admission_phase ctx.

Section scheduler.

Context `{cell_config}.

(** Modelled from the spec: the first pass of the multiplexer (section
    4.4), control elements first; a mandatory control element that does not
    fit makes the call fail. Returns the entries and the remaining budget. *)
Fixpoint pack_ces (ces : list ce_type) (budget : N)
  : option (list tb_entry * N) :=
  match ces with
  | [] => Some ([], budget)
  | ty :: rest =>
      if ce_size ty <=? budget then
        match pack_ces rest (budget - ce_size ty) with
        | Some (entries, remaining) =>
            Some (CE_ENTRY ty (ce_size ty) :: entries, remaining)
        | None => None
        end
      else None
  end.

(** Modelled from the spec: the second pass of the multiplexer (section
    4.4), the logical channels by configured priority, consuming from each
    until the budget or the channel's pending bytes are exhausted. *)
Fixpoint pack_lcs (lcs : list logical_channel) (budget : N) : list tb_entry :=
  match lcs with
  | [] => []
  | lc :: rest =>
      if budget =? 0 then []
      else if lc_pending lc =? 0 then pack_lcs rest budget
      else
        let bytes := N.min (lc_pending lc) budget in
        LC_ENTRY (lc_id lc) bytes :: pack_lcs rest (budget - bytes)
  end.

(** The entries of a queue of control elements, in queue order. *)
Definition ce_entries (ces : list ce_type) : list tb_entry :=
  (fun ty => CE_ENTRY ty (ce_size ty)) <$> ces.

(** The pending bytes of a list of channels. *)
Definition pending_total (lcs : list logical_channel) : N :=
  foldr (fun lc acc => lc_pending lc + acc) 0 lcs.

(** The bytes a plan schedules. *)
Definition entry_bytes (e : tb_entry) : N :=
  match e with
  | CE_ENTRY _ bytes => bytes
  | LC_ENTRY _ bytes => bytes
  end.

Definition plan_bytes (plan : list tb_entry) : N :=
  foldr (fun e acc => entry_bytes e + acc) 0 plan.

(** Modelled from the spec: [pack(device_context, byte_budget)] of section
    4.4. *)
Definition pack (ctx : device_context) (budget : N)
  : sched_error + list tb_entry :=
  match pack_ces (pending_ces ctx) budget with
  | None => inl InsufficientBudget
  | Some (entries, remaining) =>
      inr (entries ++ pack_lcs (channels ctx) remaining)
  end.

(** Modelled from the spec: the channels after the bytes [pack_lcs] took
    have left their buffers. *)
Fixpoint drain_lcs (lcs : list logical_channel) (budget : N)
  : list logical_channel :=
  match lcs with
  | [] => []
  | lc :: rest =>
      if budget =? 0 then lc :: rest
      else if lc_pending lc =? 0 then lc :: drain_lcs rest budget
      else
        let bytes := N.min (lc_pending lc) budget in
        {| lc_id := lc_id lc; lc_segmentable := lc_segmentable lc;
           lc_pending := lc_pending lc - bytes |}
        :: drain_lcs rest (budget - bytes)
  end.

(** Modelled from the spec: the minimum viable allocation for the mandatory
    control elements of a device (section 4.3 (b)). *)
Definition min_viable (ces : list ce_type) : N :=
  foldr (fun ty acc => ce_size ty + acc) 0 ces.

(** Modelled from the spec: the bytes the channels need so that no channel
    without segmentation support is truncated (section 4.2, third rule):
    everything up to the last such channel that has pending bytes. *)
Fixpoint unsegmented_need (lcs : list logical_channel) : N :=
  match lcs with
  | [] => 0
  | lc :: rest =>
      let later := unsegmented_need rest in
      if (negb (lc_segmentable lc) && (0 <? lc_pending lc)) || (0 <? later)
      then lc_pending lc + later
      else 0
  end.

(** Modelled from the spec: growing the allocation to fit the mandatory
    control elements and the full payload of a channel without segmentation
    support (sections 4.2 and 4.4). *)
Definition grow (ctx : device_context) (budget : N) : N :=
  N.max budget (min_viable (pending_ces ctx) + unsegmented_need (channels ctx)).

(** Modelled from the spec: the context once a transport block packed with
    [budget] is published: the control elements are sent and the channels
    drained. *)
Definition consume (ctx : device_context) (budget : N) : device_context :=
  {| device_index := device_index ctx;
     temporary_address := temporary_address ctx;
     stable_address := stable_address ctx;
     admission_phase := admission_phase ctx;
     pending_ces := [];
     channels :=
       drain_lcs (channels ctx) (budget - min_viable (pending_ces ctx)) |}.

(** Modelled from the spec: the identity used for addressing, per current
    phase (sections 3 and 4.2): the temporary address until resolution
    completes, the stable address from then on. *)
Definition addressing_of (ctx : device_context) : option addressing :=
  match admission_phase ctx with
  | DETECTED | AWAITING_RESOLUTION => Some (TEMPORARY (temporary_address ctx))
  | RESOLVED => Some (STABLE (stable_address ctx))
  | RELEASED => None
  end.

(** Modelled from the spec: the temporary-address phases, in which the
    identity of the device is unresolved (section 3, invariant). *)
Definition unresolved (p : phase) : bool :=
  match p with
  | DETECTED | AWAITING_RESOLUTION => true
  | RESOLVED | RELEASED => false
  end.

(** Modelled from the spec: the ALLOCATE and MULTIPLEX steps (section 4.5)
    over the policy's ordered proposal. A device gets one transport block
    per slot (glossary); it is skipped when its context is gone, deferred
    when the grid cannot take the grown allocation or the multiplexer
    reports [InsufficientBudget] (sections 4.3 (b) and 4.4), and left out
    when there is nothing to send. *)
Fixpoint allocate (proposals : list (N * N)) (served : list N)
    (store : gmap N device_context) (capacity : N)
  : list assignment * gmap N device_context :=
  match proposals with
  | [] => ([], store)
  | (d, budget) :: rest =>
      if bool_decide (d ∈ served) then allocate rest served store capacity
      else
        match store !! d with
        | None => allocate rest served store capacity
        | Some ctx =>
            match addressing_of ctx with
            | None => allocate rest served store capacity
            | Some addr =>
                let b := grow ctx budget in
                if capacity <? b then allocate rest served store capacity
                else
                  match pack ctx b with
                  | inl _ => allocate rest served store capacity
                  | inr plan =>
                      if bool_decide (plan = []) then
                        allocate rest served store capacity
                      else
                        let '(assignments, store') :=
                          allocate rest (d :: served)
                            (<[d := consume ctx b]> store) (capacity - b) in
                        ({| a_device := d; a_addressing := addr;
                            a_tb_list := [plan] |} :: assignments, store')
                  end
            end
        end
  end.

(** Modelled from the spec: one run of the slot orchestrator (section 4.5),
    BEGIN to END. *)
Definition slot_step (slot : N) (events : list event)
    (store : gmap N device_context)
  : allocation_result * gmap N device_context :=
  let drained := event_drain events store in
  let capacity := slot_capacity slot in
  let '(assignments, store') :=
    allocate (policy slot drained capacity) [] drained capacity in
  ({| r_slot := slot; r_downlink := assignments |}, store').

(** Modelled from the spec: consecutive slots, each with the events that
    arrived before it; the results in slot order and the store at the end. *)
Fixpoint run (slot : N) (events : list (list event))
    (store : gmap N device_context)
  : list allocation_result * gmap N device_context :=
  match events with
  | [] => ([], store)
  | evs :: rest =>
      let '(result, store') := slot_step slot evs store in
      let '(results, final) := run (slot + 1) rest store' in
      (result :: results, final)
  end.


End scheduler.

(** *** A concrete cell *)

(** Control elements of six bytes, 200 bytes per slot, and a policy that
    proposes every stored device with the whole slot as budget. *)
Definition example_cell : cell_config :=
  {| ce_size := fun _ => 6;
     slot_capacity := fun _ => 200;
     policy := fun _ store capacity =>
                 (fun entry => (fst entry, capacity)) <$> map_to_list store |}.

(** A device awaiting resolution with its identity confirmation pending and
    [bytes] pending on channel 0, which has no segmentation support;
    channel 1 is segmentable and empty. *)
Definition awaiting_device (bytes : N) : device_context :=
  {| device_index := 0;
     temporary_address := 17921;
     stable_address := 1;
     admission_phase := AWAITING_RESOLUTION;
     pending_ces := [IDENTITY_CONFIRMATION];
     channels := [ mk_logical_channel 0 false bytes;
                   mk_logical_channel 1 true 0 ] |}.

(** The store that holds this device alone. *)
Definition example_store (bytes : N) : gmap N device_context :=
  {[ 0 := awaiting_device bytes ]}.

(** The transport block expected for the control element with a 128-byte
    message on channel 0, and the one for later data on channel 1. *)
Definition first_assignment : assignment :=
  {| a_device := 0;
     a_addressing := TEMPORARY 17921;
     a_tb_list := [[CE_ENTRY IDENTITY_CONFIRMATION 6; LC_ENTRY 0 128]] |}.

Definition later_assignment : assignment :=
  {| a_device := 0;
     a_addressing := TEMPORARY 17921;
     a_tb_list := [[LC_ENTRY 1 200]] |}.

End Sched.

(** ** Part III: the initial DU setup procedure

    [initial_du_setup_procedure] of the DU manager: the F1 setup exchange,
    then the configuration of the DU cells in the MAC, then the activation.
    The procedure is a coroutine with one suspension point, the F1 setup
    response; here the response is an argument. What the procedure does to
    its collaborators (F1AP connection manager, MAC cell manager) is
    recorded as a list of effects, in the order of the calls. *)

Module DuSetup.

(** The converters, the validator and the types they work on are declared
    in headers that are not among the sources at hand: they are parameters.
    [validate] gives the error text of
    [validate_sched_cell_configuration_request_message], [None] when the
    configuration is valid. *)
Class du_setup_env := {
  du_cell_config : Type;
  sched_cell_configuration : Type;
  scheduler_expert_config : Type;
  mac_cell_creation_request : Type;
  make_asn1_rrc_cell_bcch_dl_sch_msg : du_cell_config → list Z;
  make_sched_cell_config_req :
    N → du_cell_config → nat → sched_cell_configuration;
  validate_sched_cell_configuration_request_message :
    sched_cell_configuration → scheduler_expert_config → option string;
  make_mac_cell_config :
    N → du_cell_config → list Z → sched_cell_configuration →
    mac_cell_creation_request
}.

Section initial_du_setup_procedure.

Context `{du_setup_env}.

(** The calls on the collaborators. *)
Inductive effect :=
| F1_SETUP_REQUEST
| ADD_CELL (cell : mac_cell_creation_request)
| START_CELL (cell_index : N).

(** How the procedure ends: [CORO_RETURN], or one of the two
    [report_fatal_error] calls, which end the process. *)
Inductive outcome :=
| RETURNED
| F1_SETUP_FAILED
| INVALID_CELL (cell_index : N) (cause : string).

(** What the loop body computes for the cell at [cell_index]. *)
Definition sched_cfg_of (cell_index : N) (du_cfg : du_cell_config)
  : sched_cell_configuration :=
  make_sched_cell_config_req cell_index du_cfg
    (length (make_asn1_rrc_cell_bcch_dl_sch_msg du_cfg)).

Definition mac_cell_of (cell_index : N) (du_cfg : du_cell_config)
  : mac_cell_creation_request :=
  make_mac_cell_config cell_index du_cfg
    (make_asn1_rrc_cell_bcch_dl_sch_msg du_cfg)
    (sched_cfg_of cell_index du_cfg).

(** The loop "Configure DU Cells", from cell index [idx] on over the cells
    that are left; it stops at the first cell whose configuration is
    invalid. *)
Fixpoint configure_cells (sched_cfg : scheduler_expert_config) (idx : N)
    (cells : list du_cell_config) : list effect * outcome :=
  match cells with
  | [] => ([], RETURNED)
  | du_cfg :: rest =>
      match validate_sched_cell_configuration_request_message
              (sched_cfg_of idx du_cfg) sched_cfg with
      | Some cause => ([], INVALID_CELL idx cause)
      | None =>
          let '(effects, result) := configure_cells sched_cfg (idx + 1)%N rest in
          (ADD_CELL (mac_cell_of idx du_cfg) :: effects, result)
      end
  end.

(** [handle_f1_setup_response]. *)
Definition handle_f1_setup_response (success : bool) : outcome :=
  if negb success then F1_SETUP_FAILED else RETURNED.

(** [operator()]: the F1 setup request, the handling of its response, the
    configuration loop and the activation of the cell with index 0. *)
Definition initial_du_setup_procedure (sched_cfg : scheduler_expert_config)
    (cells : list du_cell_config) (response_success : bool)
  : list effect * outcome :=
  match handle_f1_setup_response response_success with
  | RETURNED =>
      match configure_cells sched_cfg 0 cells with
      | (effects, RETURNED) =>
          (F1_SETUP_REQUEST :: effects ++ [START_CELL 0], RETURNED)
      | (effects, failure) => (F1_SETUP_REQUEST :: effects, failure)
      end
  | failure => ([F1_SETUP_REQUEST], failure)
  end.

(** The [add_cell] calls for the cells of a list whose first cell has index
    [idx]. *)
Definition added_cells (idx : N) (cells : list du_cell_config) : list effect :=
  imap (fun i du_cfg => ADD_CELL (mac_cell_of (idx + N.of_nat i) du_cfg)) cells.

(** The cell at position [i] passes the validation. *)
Definition valid_cell (sched_cfg : scheduler_expert_config) (i : nat)
    (du_cfg : du_cell_config) : Prop :=
  validate_sched_cell_configuration_request_message
    (sched_cfg_of (N.of_nat i) du_cfg) sched_cfg = None.

End initial_du_setup_procedure.

(** A concrete environment: a cell configuration is its bandwidth in MHz,
    its SIB1 has that many bytes, and the validator rejects a bandwidth
    of 0. *)
Definition example_env : du_setup_env :=
  {| du_cell_config := N;
     sched_cell_configuration := N * N * nat;
     scheduler_expert_config := unit;
     mac_cell_creation_request := N * N;
     make_asn1_rrc_cell_bcch_dl_sch_msg := fun bw => replicate (N.to_nat bw) 0%Z;
     make_sched_cell_config_req := fun idx bw len => (idx, bw, len);
     validate_sched_cell_configuration_request_message :=
       fun cfg _ => if N.eqb (snd (fst cfg)) 0 then Some "no bandwidth" else None;
     make_mac_cell_config := fun idx bw _ _ => (idx, bw) |}.

End DuSetup.

(** ** Facts about [ngap_ue_context_list] *)

Module NgapFacts.
Import Ngap.

Section emplace_erase.
Context {V : Type}.
Implicit Types (m : gmap Z V) (k j : Z) (v : V).

Lemma emplace_fresh k v m : m !! k = None → emplace k v m = <[k := v]> m.
Proof. intros Hk. unfold emplace. by rewrite Hk. Qed.

Lemma emplace_present k v m : is_Some (m !! k) → emplace k v m = m.
Proof. intros [w Hw]. unfold emplace. by rewrite Hw. Qed.

Lemma lookup_emplace_ne k j v m : k ≠ j → emplace k v m !! j = m !! j.
Proof.
  intros Hne. unfold emplace.
  destruct (m !! k); [done | by rewrite lookup_insert_ne].
Qed.

Lemma lookup_emplace_eq k v m :
  emplace k v m !! k = Some (default v (m !! k)).
Proof.
  unfold emplace. destruct (m !! k) as [w|] eqn:Hk; simpl.
  - done.
  - by rewrite lookup_insert_eq.
Qed.

Lemma erase_emplace_fresh k v m : m !! k = None → erase k (emplace k v m) = m.
Proof.
  intros Hk. rewrite emplace_fresh by done.
  unfold erase. by rewrite delete_insert_id.
Qed.
End emplace_erase.

Lemma ran_ue_id_in_use_true id (m : gmap Z Z) :
  ran_ue_id_in_use id m = true ↔ ∃ idx, m !! idx = Some id.
Proof.
  unfold ran_ue_id_in_use. rewrite existsb_exists. split.
  - intros [[i r] [Hin Heq]]. simpl in Heq. apply Z.eqb_eq in Heq. subst r.
    exists i. apply elem_of_map_to_list. by apply list_elem_of_In.
  - intros [i Hi]. exists (i, id). split.
    + apply list_elem_of_In. by apply elem_of_map_to_list.
    + simpl. apply Z.eqb_refl.
Qed.

Lemma ran_ue_id_in_use_false id (m : gmap Z Z) :
  ran_ue_id_in_use id m = false ↔ ∀ idx, m !! idx ≠ Some id.
Proof.
  rewrite <- not_true_iff_false, ran_ue_id_in_use_true. split.
  - intros Hn idx Hidx. apply Hn. by exists idx.
  - intros Hn [idx Hidx]. by apply (Hn idx).
Qed.

Section facts.
Context `{ngap_types}.
Implicit Types (l : ngap_ue_context_list) (ue : ngap_ue_context).

(** The invariant in quantified form. *)
Lemma consistent_alt l :
  consistent l ↔
  amf_ue_id_to_ran_ue_id l !! amf_ue_id_invalid = None ∧
  (∀ idx ran, ue_index_to_ran_ue_id l !! idx = Some ran →
     ∃ ue, ues l !! ran = Some ue ∧ ue_index (ue_ids ue) = idx) ∧
  (∀ amf ran, amf_ue_id_to_ran_ue_id l !! amf = Some ran →
     ∃ ue, ues l !! ran = Some ue ∧ amf_ue_id (ue_ids ue) = amf) ∧
  (∀ ran ue, ues l !! ran = Some ue →
     ran_ue_id (ue_ids ue) = ran ∧
     ue_index_to_ran_ue_id l !! ue_index (ue_ids ue) = Some ran ∧
     (amf_ue_id (ue_ids ue) ≠ amf_ue_id_invalid →
      amf_ue_id_to_ran_ue_id l !! amf_ue_id (ue_ids ue) = Some ran)).
Proof.
  unfold consistent. rewrite !map_Forall_lookup.
  split; intros (Hinv & Hidx & Hamf & Hues); (split; [done |]);
    (split; [| split; [| done]]).
  - intros idx ran Hl. specialize (Hidx idx ran Hl).
    destruct (ues l !! ran) as [ue|]; simplify_eq/=. eauto.
  - intros amf ran Hl. specialize (Hamf amf ran Hl).
    destruct (ues l !! ran) as [ue|]; simplify_eq/=. eauto.
  - intros idx ran Hl. destruct (Hidx idx ran Hl) as (ue & -> & <-). done.
  - intros amf ran Hl. destruct (Hamf amf ran Hl) as (ue & -> & <-). done.
Qed.

Lemma consistent_empty_list : consistent empty_list.
Proof. apply consistent_alt. unfold empty_list; simpl. set_solver. Qed.

(** A call returns normally exactly when its assertions hold. *)
Lemma update_amf_ue_id_is_Some ran amf l :
  is_Some (update_amf_ue_id ran amf l) ↔
  amf ≠ amf_ue_id_invalid ∧ ran ≠ ran_ue_id_invalid ∧ is_Some (ues l !! ran).
Proof.
  unfold update_amf_ue_id. repeat case_bool_decide.
  all: destruct (ues l !! ran) as [ue|]; simpl.
  all: repeat case_bool_decide.
  all: split; [intros [? ?] | intros (? & ? & [? ?])]; simplify_eq; eauto.
Qed.

Lemma update_ue_index_is_Some new_ue_index old_ue_index l :
  is_Some (update_ue_index new_ue_index old_ue_index l) ↔
  new_ue_index ≠ ue_index_invalid ∧ old_ue_index ≠ ue_index_invalid ∧
  ∃ ran, ue_index_to_ran_ue_id l !! old_ue_index = Some ran ∧
         is_Some (ues l !! ran).
Proof.
  unfold update_ue_index. repeat case_bool_decide.
  all: destruct (ue_index_to_ran_ue_id l !! old_ue_index) as [ran|]; simpl.
  all: try destruct (ues l !! ran) as [ue|] eqn:Hue; simpl.
  all: split; [intros [? ?] | intros (? & ? & ? & ? & [? ?])];
    simplify_eq; eauto 10.
Qed.

(** What [update_amf_ue_id] leaves behind for the updated context. *)
Lemma update_amf_ue_id_sets ran amf l l' :
  update_amf_ue_id ran amf l = Some l' →
  ∃ ue', ues l' !! ran = Some ue' ∧ amf_ue_id (ue_ids ue') = amf.
Proof.
  unfold update_amf_ue_id. intros Hupd.
  repeat case_bool_decide; try done.
  destruct (ues l !! ran) as [ue|] eqn:Hue; [| done].
  repeat case_bool_decide; simplify_eq/=; eauto;
    try (eexists; split; [apply lookup_insert_eq | done]).
Qed.

(** C9. [update_amf_ue_id] is idempotent: a second call with the same
    RAN-UE-ID and the same AMF-UE-ID returns normally and leaves the list
    exactly as the first call left it (identifiers, lookup maps, counter
    and every other field of every context). *)
Theorem update_amf_ue_id_idempotent ran amf l l' :
  update_amf_ue_id ran amf l = Some l' →
  update_amf_ue_id ran amf l' = Some l'.
Proof.
  intros Hfirst.
  destruct (update_amf_ue_id_sets _ _ _ _ Hfirst) as (ue' & Hue' & Hamf).
  assert (is_Some (update_amf_ue_id ran amf l)) as Hok by eauto.
  apply update_amf_ue_id_is_Some in Hok as (Hamf_valid & Hran_valid & _).
  unfold update_amf_ue_id.
  rewrite !bool_decide_eq_false_2 by done.
  rewrite Hue'. by rewrite bool_decide_eq_true_2.
Qed.

(** *** The identity updates keep the lookups consistent *)

Lemma update_amf_ue_id_consistent ran amf l l' :
  consistent l →
  update_amf_ue_id ran amf l = Some l' →
  (∀ r, amf_ue_id_to_ran_ue_id l !! amf = Some r → r = ran) →
  consistent l'.
Proof.
  intros Hcons Hupd Hunused.
  pose proof Hcons as (Hinv & Hidx & Hamf & Hues)%consistent_alt.
  unfold update_amf_ue_id in Hupd.
  repeat case_bool_decide; try done.
  destruct (ues l !! ran) as [ue|] eqn:Hue; [| done].
  pose proof (Hues _ _ Hue) as (Hran & Hback & Hamf_back).
  case_bool_decide as Hsame; [by simplify_eq |].
  assert (amf_ue_id_to_ran_ue_id l !! amf = None) as Hfree.
  { destruct (amf_ue_id_to_ran_ue_id l !! amf) as [r|] eqn:Hr; [| done].
    rewrite (Hunused r eq_refl) in Hr.
    destruct (Hamf _ _ Hr) as (ue0 & ? & ?). by simplify_eq. }
  case_bool_decide as Hold; [| case_bool_decide; [| done]];
    apply (inj Some) in Hupd; subst l'; apply consistent_alt; simpl;
    rewrite emplace_fresh by done; unfold erase.
  - (* the AMF-UE-ID was not set before *)
    split; [by rewrite lookup_insert_ne |]. split; [| split].
    + intros idx r Hl. destruct (Hidx _ _ Hl) as (u & Hu & Hi).
      destruct (decide (r = ran)) as [-> |].
      * rewrite lookup_insert_eq. simplify_eq. eauto.
      * rewrite lookup_insert_ne by done. eauto.
    + intros a r. destruct (decide (a = amf)) as [-> |].
      * rewrite !lookup_insert_eq. intros ?; simplify_eq.
        rewrite lookup_insert_eq. eauto.
      * rewrite lookup_insert_ne by done. intros Hl.
        destruct (Hamf _ _ Hl) as (u & Hu & Ha).
        assert (r ≠ ran) by (intros ->; simplify_eq; congruence).
        rewrite lookup_insert_ne by done. eauto.
    + intros r u. destruct (decide (r = ran)) as [-> |].
      * rewrite lookup_insert_eq. intros ?; simplify_eq/=.
        rewrite lookup_insert_eq. done.
      * rewrite lookup_insert_ne by done. intros Hu.
        destruct (Hues _ _ Hu) as (? & ? & Ha). split_and!; [done.. |].
        intros Hv. specialize (Ha Hv).
        rewrite lookup_insert_ne; [done |].
        intros Heq. rewrite <- Heq in Ha. congruence.
  - (* a different AMF-UE-ID was set before *)
    specialize (Hamf_back Hold).
    split; [by rewrite lookup_delete_ne, lookup_insert_ne |].
    split; [| split].
    + intros idx r Hl. destruct (Hidx _ _ Hl) as (u & Hu & Hi).
      destruct (decide (r = ran)) as [-> |].
      * rewrite lookup_insert_eq. simplify_eq. eauto.
      * rewrite lookup_insert_ne by done. eauto.
    + intros a r. destruct (decide (a = amf_ue_id (ue_ids ue))) as [-> |].
      { by rewrite lookup_delete_eq. }
      rewrite lookup_delete_ne by done.
      destruct (decide (a = amf)) as [-> |].
      * rewrite !lookup_insert_eq. intros ?; simplify_eq.
        rewrite lookup_insert_eq. eauto.
      * rewrite lookup_insert_ne by done. intros Hl.
        destruct (Hamf _ _ Hl) as (u & Hu & Ha).
        assert (r ≠ ran) by (intros ->; simplify_eq; congruence).
        rewrite lookup_insert_ne by done. eauto.
    + intros r u. destruct (decide (r = ran)) as [-> |].
      * rewrite lookup_insert_eq. intros ?; simplify_eq/=.
        rewrite lookup_delete_ne, lookup_insert_eq by done. done.
      * rewrite lookup_insert_ne by done. intros Hu.
        destruct (Hues _ _ Hu) as (? & ? & Ha). split_and!; [done.. |].
        intros Hv. specialize (Ha Hv).
        rewrite lookup_delete_ne by (intros Heq; rewrite Heq in Hamf_back; congruence).
        rewrite lookup_insert_ne; [done |].
        intros Heq. rewrite <- Heq in Ha. congruence.
Qed.

Lemma update_ue_index_consistent new_ue_index old_ue_index l l' :
  consistent l →
  update_ue_index new_ue_index old_ue_index l = Some l' →
  ue_index_to_ran_ue_id l !! new_ue_index = None →
  consistent l'.
Proof.
  intros Hcons Hupd Hfree.
  pose proof Hcons as (Hinv & Hidx & Hamf & Hues)%consistent_alt.
  unfold update_ue_index in Hupd.
  repeat case_bool_decide; try done.
  destruct (ue_index_to_ran_ue_id l !! old_ue_index) as [ran|] eqn:Hold; [| done].
  destruct (ues l !! ran) as [ue|] eqn:Hue; [| done].
  destruct (Hidx _ _ Hold) as (ue0 & Hue0 & Hold_idx).
  assert (new_ue_index ≠ old_ue_index) by congruence.
  simplify_eq/=. apply consistent_alt; simpl.
  rewrite emplace_fresh by done; unfold erase.
  split; [done |]. split; [| split].
  - intros idx r. destruct (decide (idx = ue_index (ue_ids ue))) as [-> |].
    { by rewrite lookup_delete_eq. }
    rewrite lookup_delete_ne by done.
    destruct (decide (idx = new_ue_index)) as [-> |].
    + rewrite lookup_insert_eq. intros ?; simplify_eq.
      rewrite lookup_insert_eq. eauto.
    + rewrite lookup_insert_ne by done. intros Hl.
      destruct (Hidx _ _ Hl) as (u & Hu & Hi).
      assert (r ≠ ran) by (intros ->; simplify_eq).
      rewrite lookup_insert_ne by done. eauto.
  - intros a r Hl. destruct (Hamf _ _ Hl) as (u & Hu & Ha).
    destruct (decide (r = ran)) as [-> |].
    + rewrite lookup_insert_eq. simplify_eq. eauto.
    + rewrite lookup_insert_ne by done. eauto.
  - intros r u. destruct (decide (r = ran)) as [-> |].
    + rewrite lookup_insert_eq. intros ?; simplify_eq/=.
      rewrite lookup_delete_ne, lookup_insert_eq by done.
      destruct (Hues _ _ Hue) as (? & ? & ?). done.
    + rewrite lookup_insert_ne by done. intros Hu.
      destruct (Hues _ _ Hu) as (? & Hi & ?). split_and!; [done | | done].
      rewrite lookup_delete_ne by (intros Heq; rewrite Heq in Hold; congruence).
      rewrite lookup_insert_ne; [done |].
      intros Heq. rewrite <- Heq in Hi. congruence.
Qed.

(** In a consistent list the three [operator[]] overloads agree on every
    stored context. *)
Lemma consistent_lookups_agree l ran ue :
  consistent l → ues l !! ran = Some ue →
  at_ran_ue_id l ran = Some ue ∧
  at_ue_index l (ue_index (ue_ids ue)) = Some ue ∧
  (amf_ue_id (ue_ids ue) ≠ amf_ue_id_invalid →
   at_amf_ue_id l (amf_ue_id (ue_ids ue)) = Some ue).
Proof.
  intros (_ & _ & _ & Hues)%consistent_alt Hue.
  destruct (Hues _ _ Hue) as (_ & Hi & Ha).
  unfold at_ran_ue_id, at_ue_index, at_amf_ue_id.
  split; [done |]. split.
  - by rewrite Hi.
  - intros Hv. by rewrite (Ha Hv).
Qed.

(** C6 (amended). In a consistent list, a call of [update_amf_ue_id]
    whose assertions hold and whose AMF-UE-ID is not bound to another
    RAN-UE-ID, and a call of [update_ue_index] whose assertions hold and
    whose new UE index is not bound at all, leave the list consistent: the
    updated context is the one found under its UE index, under its
    RAN-UE-ID and under its AMF-UE-ID, and the superseded identifier no
    longer resolves. *)
Theorem identity_updates_keep_lookups_consistent l :
  consistent l →
  (∀ ran amf l',
     update_amf_ue_id ran amf l = Some l' →
     (∀ r, amf_ue_id_to_ran_ue_id l !! amf = Some r → r = ran) →
     consistent l' ∧
     ∃ ue', at_ran_ue_id l' ran = Some ue' ∧
            at_ue_index l' (ue_index (ue_ids ue')) = Some ue' ∧
            at_amf_ue_id l' amf = Some ue' ∧
            amf_ue_id (ue_ids ue') = amf ∧
            ∀ ue, ues l !! ran = Some ue →
                  amf_ue_id (ue_ids ue) ≠ amf →
                  contains_amf_ue_id l' (amf_ue_id (ue_ids ue)) = false) ∧
  (∀ new_ue_index old_ue_index l',
     update_ue_index new_ue_index old_ue_index l = Some l' →
     ue_index_to_ran_ue_id l !! new_ue_index = None →
     consistent l' ∧
     ∃ ue', at_ue_index l' new_ue_index = Some ue' ∧
            ue_index (ue_ids ue') = new_ue_index ∧
            at_ran_ue_id l' (ran_ue_id (ue_ids ue')) = Some ue' ∧
            (amf_ue_id (ue_ids ue') ≠ amf_ue_id_invalid →
             at_amf_ue_id l' (amf_ue_id (ue_ids ue')) = Some ue') ∧
            contains_ue_index l' old_ue_index = false).
Proof.
  intros Hcons. split.
  - intros ran amf l' Hupd Hunused.
    pose proof (update_amf_ue_id_consistent _ _ _ _ Hcons Hupd Hunused) as Hcons'.
    split; [done |].
    destruct (update_amf_ue_id_sets _ _ _ _ Hupd) as (ue' & Hue' & Hamf').
    assert (is_Some (update_amf_ue_id ran amf l)) as Hok by eauto.
    apply update_amf_ue_id_is_Some in Hok as (Hamf_valid & Hran_valid & _).
    destruct (consistent_lookups_agree _ _ _ Hcons' Hue') as (Hr & Hi & Ha).
    exists ue'. rewrite Hamf' in Ha. split_and!; [done | done | by apply Ha | done |].
    intros ue Hue Hdiff. unfold contains_amf_ue_id.
    destruct (amf_ue_id_to_ran_ue_id l' !! amf_ue_id (ue_ids ue)) as [r|] eqn:Hr';
      [| done].
    exfalso.
    pose proof Hcons as (Hinv & _ & Hamf & Hues)%consistent_alt.
    pose proof (Hues _ _ Hue) as (_ & _ & Hamf_back).
    unfold update_amf_ue_id in Hupd.
    rewrite (bool_decide_eq_false_2 _ Hamf_valid),
      (bool_decide_eq_false_2 _ Hran_valid), Hue,
      (bool_decide_eq_false_2 _ Hdiff) in Hupd.
    destruct (decide (amf_ue_id (ue_ids ue) = amf_ue_id_invalid)) as [Hold | Hold];
      [ rewrite (bool_decide_eq_true_2 _ Hold) in Hupd
      | rewrite (bool_decide_eq_false_2 _ Hold),
          (bool_decide_eq_true_2 _ Hdiff) in Hupd ];
      apply (inj Some) in Hupd; subst l'; simpl in *.
    + rewrite Hold, lookup_emplace_ne, Hinv in Hr' by done. done.
    + unfold erase in Hr'. by rewrite lookup_delete_eq in Hr'.
  - intros new_ue_index old_ue_index l' Hupd Hfree.
    pose proof (update_ue_index_consistent _ _ _ _ Hcons Hupd Hfree) as Hcons'.
    split; [done |].
    unfold update_ue_index in Hupd.
    repeat case_bool_decide; try done.
    destruct (ue_index_to_ran_ue_id l !! old_ue_index) as [ran|] eqn:Hold;
      [| done].
    destruct (ues l !! ran) as [ue|] eqn:Hue; [| done].
    assert (new_ue_index ≠ old_ue_index) by congruence.
    apply (inj Some) in Hupd.
    assert (ues l' !! ran
            = Some (set_prefix
                      (mk_ngap_ue_ids new_ue_index ran (amf_ue_id (ue_ids ue)))
                      (set_ue_index new_ue_index ue))) as Hue'.
    { subst l'. simpl. apply lookup_insert_eq. }
    destruct (consistent_lookups_agree _ _ _ Hcons' Hue') as (Hr & Hi & Ha).
    pose proof (proj1 (consistent_alt _) Hcons') as (_ & _ & _ & Hues').
    destruct (Hues' _ _ Hue') as (Hran' & _ & _).
    eexists. split_and!; [exact Hi | done | | exact Ha |].
    + rewrite Hran'. exact Hr.
    + subst l'. unfold contains_ue_index, erase. simpl.
      by rewrite lookup_delete_eq.
Qed.

(** *** Adding, identifying and releasing a UE *)

Lemma add_ue_consistent idx ran l l' :
  consistent l →
  ue_index_to_ran_ue_id l !! idx = None →
  ues l !! ran = None →
  add_ue idx ran l = Some l' →
  consistent l'.
Proof.
  intros (Hinv & Hidx & Hamf & Hues)%consistent_alt Hi Hr Hadd.
  unfold add_ue in Hadd. repeat case_bool_decide; try done.
  apply (inj Some) in Hadd. subst l'. apply consistent_alt. simpl.
  rewrite !emplace_fresh by done.
  split; [done |]. split; [| split].
  - intros i r. destruct (decide (i = idx)) as [-> |].
    + rewrite lookup_insert_eq. intros ?; simplify_eq.
      rewrite lookup_insert_eq. eauto.
    + rewrite lookup_insert_ne by done. intros Hl.
      destruct (Hidx _ _ Hl) as (u & Hu & ?).
      rewrite lookup_insert_ne by congruence. eauto.
  - intros a r Hl. destruct (Hamf _ _ Hl) as (u & Hu & ?).
    rewrite lookup_insert_ne by congruence. eauto.
  - intros r u. destruct (decide (r = ran)) as [-> |].
    + rewrite lookup_insert_eq. intros ?; simplify_eq/=.
      by rewrite lookup_insert_eq.
    + rewrite lookup_insert_ne by done. intros Hu.
      destruct (Hues _ _ Hu) as (? & Hb & ?). split_and!; [done | | done].
      rewrite lookup_insert_ne; [done | congruence].
Qed.

Lemma remove_ue_context_consistent idx l l' :
  consistent l → remove_ue_context idx l = Some l' → consistent l'.
Proof.
  intros Hcons Hrem.
  pose proof Hcons as (Hinv & Hidx & Hamf & Hues)%consistent_alt.
  unfold remove_ue_context in Hrem. case_bool_decide; [done |].
  destruct (ue_index_to_ran_ue_id l !! idx) as [ran|] eqn:Hi;
    [| by simplify_eq].
  destruct (Hidx _ _ Hi) as (ue & Hue & Hue_idx).
  rewrite Hue in Hrem. apply (inj Some) in Hrem. subst l'.
  pose proof (Hues _ _ Hue) as (_ & _ & Hback).
  apply consistent_alt. simpl. unfold erase.
  assert (∀ a r, (if bool_decide (amf_ue_id (ue_ids ue) ≠ amf_ue_id_invalid)
                  then delete (amf_ue_id (ue_ids ue)) (amf_ue_id_to_ran_ue_id l)
                  else amf_ue_id_to_ran_ue_id l) !! a = Some r ↔
                 amf_ue_id_to_ran_ue_id l !! a = Some r ∧ r ≠ ran) as Hamf'.
  { intros a r. case_bool_decide as Hv.
    - rewrite lookup_delete_Some. split.
      + intros [Hne Hl]. split; [done |]. intros ->.
        destruct (Hamf _ _ Hl) as (u & Hu & Ha). by simplify_eq.
      + intros [Hl Hne]. split; [| done]. intros <-.
        rewrite (Hback Hv) in Hl. by simplify_eq.
    - split; [| by intros [? ?]]. intros Hl. split; [done |]. intros ->.
      destruct (Hamf _ _ Hl) as (u & Hu & Ha). simplify_eq.
      congruence. }
  split; [| split; [| split]].
  - apply eq_None_not_Some. intros [r Hl].
    apply Hamf' in Hl as [Hl _]. congruence.
  - intros i r [Hne Hl]%lookup_delete_Some.
    destruct (Hidx _ _ Hl) as (u & Hu & ?).
    assert (r ≠ ran) by (intros ->; simplify_eq).
    rewrite lookup_delete_ne by done. eauto.
  - intros a r [Hl Hne]%Hamf'.
    destruct (Hamf _ _ Hl) as (u & Hu & ?).
    rewrite lookup_delete_ne by done. eauto.
  - intros r u [Hne Hu]%lookup_delete_Some.
    destruct (Hues _ _ Hu) as (? & Hb & Ha). split_and!; [done | |].
    + rewrite lookup_delete_ne; [done |]. intros Heq.
      rewrite <- Heq in Hb. congruence.
    + intros Hv. apply Hamf'. split; [by apply Ha | done].
Qed.

(** In a consistent list the index map has one entry per context. *)
Lemma consistent_size l :
  consistent l → size l = base.size (ue_index_to_ran_ue_id l).
Proof.
  intros (_ & Hidx & _ & Hues)%consistent_alt.
  unfold size. rewrite <- !length_map_to_list.
  apply Nat.le_antisymm.
  - rewrite <- (length_fmap fst (map_to_list (ues l))).
    rewrite <- (length_fmap snd (map_to_list (ue_index_to_ran_ue_id l))).
    apply submseteq_length, NoDup_submseteq; [apply NoDup_fst_map_to_list |].
    intros r ([r' u] & -> & Hin%elem_of_map_to_list)%list_elem_of_fmap.
    destruct (Hues _ _ Hin) as (_ & Hb & _). simpl.
    apply list_elem_of_fmap. exists (ue_index (ue_ids u), r').
    split; [done |]. by apply elem_of_map_to_list.
  - rewrite <- (length_fmap fst (map_to_list (ues l))).
    rewrite <- (length_fmap snd (map_to_list (ue_index_to_ran_ue_id l))).
    apply submseteq_length, NoDup_submseteq.
    + apply NoDup_fmap_2_strong; [| apply NoDup_map_to_list].
      intros [i r] [i' r'] Hin%elem_of_map_to_list Hin'%elem_of_map_to_list.
      simpl. intros ->.
      destruct (Hidx _ _ Hin) as (u & Hu & ?).
      destruct (Hidx _ _ Hin') as (u' & Hu' & ?). by simplify_eq.
    + intros r ([i r'] & -> & Hin%elem_of_map_to_list)%list_elem_of_fmap.
      destruct (Hidx _ _ Hin) as (u & Hu & _). simpl.
      apply list_elem_of_fmap. exists (r', u).
      split; [done |]. by apply elem_of_map_to_list.
Qed.

Lemma update_amf_ue_id_index_map ran amf l l' :
  update_amf_ue_id ran amf l = Some l' →
  ue_index_to_ran_ue_id l' = ue_index_to_ran_ue_id l ∧
  next_ran_ue_id l' = next_ran_ue_id l.
Proof.
  unfold update_amf_ue_id. intros Hupd.
  repeat case_bool_decide; try done.
  destruct (ues l !! ran) as [ue|]; [| done].
  repeat case_bool_decide; by simplify_eq.
Qed.

(** C7 (amended). For a device added with [add_ue] under a UE index that
    is not bound to another RAN-UE-ID, then given an AMF-UE-ID with
    [update_amf_ue_id], then released with [remove_ue_context] by its UE
    index, the three calls return normally and none of the three maps keeps
    an entry under the device's UE index, RAN-UE-ID or AMF-UE-ID;
    [contains] is false for each of the three. *)
Theorem add_update_remove_leaves_no_entry idx ran amf l :
  idx ≠ ue_index_invalid →
  ran ≠ ran_ue_id_invalid →
  amf ≠ amf_ue_id_invalid →
  (∀ r, ue_index_to_ran_ue_id l !! idx = Some r → r = ran) →
  ∃ l1 l2 l3,
    add_ue idx ran l = Some l1 ∧
    update_amf_ue_id ran amf l1 = Some l2 ∧
    remove_ue_context idx l2 = Some l3 ∧
    ue_index_to_ran_ue_id l3 !! idx = None ∧
    ues l3 !! ran = None ∧
    amf_ue_id_to_ran_ue_id l3 !! amf = None ∧
    contains_ue_index l3 idx = false ∧
    contains_ran_ue_id l3 ran = false ∧
    contains_amf_ue_id l3 amf = false.
Proof.
  intros Hidx Hran Hamf Hbound.
  destruct (add_ue idx ran l) as [l1|] eqn:Hadd; last first.
  { unfold add_ue in Hadd. by rewrite !bool_decide_eq_false_2 in Hadd. }
  assert (ue_index_to_ran_ue_id l1 !! idx = Some ran ∧
          is_Some (ues l1 !! ran)) as [Hidx1 Hues1].
  { unfold add_ue in Hadd. rewrite !bool_decide_eq_false_2 in Hadd by done.
    apply (inj Some) in Hadd. subst l1. simpl.
    rewrite !lookup_emplace_eq. split; [| by eexists].
    destruct (ue_index_to_ran_ue_id l !! idx) as [r|] eqn:Hr; [| done].
    simpl. by rewrite (Hbound r). }
  destruct (update_amf_ue_id ran amf l1) as [l2|] eqn:Hupd; last first.
  { assert (is_Some (update_amf_ue_id ran amf l1)) as [? ?]; [| congruence].
    by apply update_amf_ue_id_is_Some. }
  destruct (update_amf_ue_id_sets _ _ _ _ Hupd) as (ue2 & Hue2 & Hamf2).
  destruct (update_amf_ue_id_index_map _ _ _ _ Hupd) as [Hidx2 _].
  rewrite <- Hidx2 in Hidx1.
  exists l1, l2. eexists. split; [done |]. split; [done |].
  unfold remove_ue_context.
  rewrite bool_decide_eq_false_2, Hidx1, Hue2 by done.
  rewrite Hamf2, bool_decide_eq_true_2 by done.
  split; [reflexivity |].
  unfold contains_ue_index, contains_ran_ue_id, contains_amf_ue_id, erase.
  simpl. rewrite !lookup_delete_eq. done.
Qed.

(** With all three identifiers unused, the round trip gives the list back. *)
Lemma add_update_remove_restores idx ran amf l l1 l2 l3 :
  ue_index_to_ran_ue_id l !! idx = None →
  ues l !! ran = None →
  amf_ue_id_to_ran_ue_id l !! amf = None →
  add_ue idx ran l = Some l1 →
  update_amf_ue_id ran amf l1 = Some l2 →
  remove_ue_context idx l2 = Some l3 →
  l3 = l.
Proof.
  intros Hidx Hran Hamf Hadd Hupd Hrem.
  assert (is_Some (update_amf_ue_id ran amf l1)) as Hok by eauto.
  apply update_amf_ue_id_is_Some in Hok as (Hamf_valid & Hran_valid & _).
  unfold add_ue in Hadd. repeat case_bool_decide; try done.
  apply (inj Some) in Hadd. subst l1.
  unfold update_amf_ue_id in Hupd. simpl in Hupd.
  rewrite !bool_decide_eq_false_2, lookup_emplace_eq in Hupd by done.
  rewrite Hran in Hupd. simpl in Hupd.
  rewrite (bool_decide_eq_false_2 (amf_ue_id_invalid = amf)),
    bool_decide_eq_true_2 in Hupd by done.
  apply (inj Some) in Hupd. subst l2.
  unfold remove_ue_context in Hrem. simpl in Hrem.
  rewrite bool_decide_eq_false_2, lookup_emplace_eq, Hidx in Hrem by done.
  simpl in Hrem. rewrite lookup_insert_eq in Hrem.
  simpl in Hrem. rewrite bool_decide_eq_true_2 in Hrem by done.
  apply (inj Some) in Hrem. subst l3.
  rewrite !erase_emplace_fresh by done.
  rewrite emplace_fresh by done. unfold erase.
  rewrite delete_insert_eq, delete_insert_id by done.
  by destruct l.
Qed.

(** *** [allocate_ran_ue_id] *)

Lemma increase_next_ran_ue_id_counter l :
  next_ran_ue_id (increase_next_ran_ue_id l) = next_id (next_ran_ue_id l).
Proof. done. Qed.

Lemma next_id_in_range n :
  0 ≤ ran_ue_id_min ≤ ran_ue_id_max → ran_ue_id_max < 2 ^ 64 →
  ran_ue_id_min ≤ n ≤ ran_ue_id_max →
  ran_ue_id_min ≤ next_id n ≤ ran_ue_id_max.
Proof.
  intros Hmin Hmax Hn. unfold next_id. case_bool_decide; [lia |].
  rewrite Z.mod_small; lia.
Qed.

(** The loop leaves with the first counter value that no UE index maps
    to, touches nothing but the counter, and leaves the counter one step
    past the value it returns. *)
Lemma allocate_loop_Some fuel l r l' :
  allocate_loop fuel l = Some (r, l') →
  (∀ idx, ue_index_to_ran_ue_id l !! idx ≠ Some r) ∧
  ue_index_to_ran_ue_id l' = ue_index_to_ran_ue_id l ∧
  amf_ue_id_to_ran_ue_id l' = amf_ue_id_to_ran_ue_id l ∧
  ues l' = ues l ∧
  next_ran_ue_id l' = next_id r ∧
  ∃ k : nat, (k < fuel)%nat ∧ r = Nat.iter k next_id (next_ran_ue_id l).
Proof.
  revert l. induction fuel as [| fuel IH]; intros l Hloop; [done |].
  simpl in Hloop.
  destruct (ran_ue_id_in_use _ _) eqn:Huse.
  - apply IH in Hloop as (Hfresh & Hidx & Hamf & Hues & Hnext & k & Hk & Hr).
    simpl in *. repeat (split; [done |]).
    exists (S k). split; [lia |].
    rewrite Nat.iter_succ_r. done.
  - simplify_eq.
    pose proof (proj1 (ran_ue_id_in_use_false _ _) Huse) as Hfree.
    repeat (split; [done |]). exists 0%nat. split; [lia | done].
Qed.

Lemma iter_next_id_in_range k n :
  0 ≤ ran_ue_id_min ≤ ran_ue_id_max → ran_ue_id_max < 2 ^ 64 →
  ran_ue_id_min ≤ n ≤ ran_ue_id_max →
  ran_ue_id_min ≤ Nat.iter k next_id n ≤ ran_ue_id_max.
Proof.
  intros Hmin Hmax Hn. induction k as [| k IH]; [done |].
  simpl. by apply next_id_in_range.
Qed.

(** The [k]-th value of a counter started within [min, max]. *)
Lemma iter_next_id_closed k n :
  0 ≤ ran_ue_id_min ≤ ran_ue_id_max → ran_ue_id_max < 2 ^ 64 →
  ran_ue_id_min ≤ n ≤ ran_ue_id_max →
  Nat.iter k next_id n =
    ran_ue_id_min +
    (n - ran_ue_id_min + Z.of_nat k) mod (ran_ue_id_max - ran_ue_id_min + 1).
Proof.
  intros Hmin Hmax Hn.
  set (R := ran_ue_id_max - ran_ue_id_min + 1).
  assert (0 < R) as HR by (unfold R; lia).
  induction k as [| k IH].
  - simpl. rewrite Z.add_0_r, Z.mod_small; unfold R; lia.
  - simpl. rewrite IH. clear IH.
    set (x := n - ran_ue_id_min + Z.of_nat k).
    replace (n - ran_ue_id_min + Z.of_nat (S k)) with (x + 1) by (unfold x; lia).
    pose proof (Z.mod_pos_bound x R HR) as Hy.
    pose proof (Z.div_mod x R ltac:(lia)) as Hx.
    unfold next_id. case_bool_decide as Hwrap.
    + assert ((x + 1) mod R = 0) as ->; [| lia].
      symmetry. apply (Z.mod_unique_pos _ _ (x / R + 1)); [lia |].
      unfold R in *. lia.
    + rewrite Z.mod_small by (unfold R in *; lia).
      rewrite <- Z.add_assoc. f_equal.
      apply (Z.mod_unique_pos _ _ (x / R)); [unfold R in *; lia | lia].
Qed.

(** Counter values less than a full round apart are different. *)
Lemma iter_next_id_inj (j k : nat) n :
  0 ≤ ran_ue_id_min ≤ ran_ue_id_max → ran_ue_id_max < 2 ^ 64 →
  ran_ue_id_min ≤ n ≤ ran_ue_id_max →
  Z.of_nat j < ran_ue_id_max - ran_ue_id_min + 1 →
  Z.of_nat k < ran_ue_id_max - ran_ue_id_min + 1 →
  Nat.iter j next_id n = Nat.iter k next_id n → j = k.
Proof.
  intros Hmin Hmax Hn Hj Hk.
  rewrite !iter_next_id_closed by done.
  set (R := ran_ue_id_max - ran_ue_id_min + 1) in *.
  assert (0 < R) as HR by (unfold R; lia).
  set (a := n - ran_ue_id_min).
  intros Heq. apply Z.add_cancel_l in Heq.
  pose proof (Z.div_mod (a + Z.of_nat j) R ltac:(lia)) as Hdj.
  pose proof (Z.div_mod (a + Z.of_nat k) R ltac:(lia)) as Hdk.
  rewrite Heq in Hdj.
  assert (Z.of_nat j - Z.of_nat k
          = R * ((a + Z.of_nat j) / R - (a + Z.of_nat k) / R)) as Hdiff by lia.
  assert ((a + Z.of_nat j) / R - (a + Z.of_nat k) / R = 0) by nia.
  lia.
Qed.

(** When the loop has not left after [fuel] rounds, each of the first
    [fuel] counter values is mapped to by some UE index. *)
Lemma allocate_loop_None fuel l :
  allocate_loop fuel l = None →
  ∀ j : nat, (j < fuel)%nat →
    ∃ idx, ue_index_to_ran_ue_id l !! idx
           = Some (Nat.iter j next_id (next_ran_ue_id l)).
Proof.
  revert l. induction fuel as [| fuel IH]; intros l Hloop j Hj; [lia |].
  simpl in Hloop.
  destruct (ran_ue_id_in_use _ _) eqn:Huse; [| done].
  destruct j as [| j].
  - simpl. by apply ran_ue_id_in_use_true.
  - rewrite Nat.iter_succ_r.
    apply (IH (increase_next_ran_ue_id l) Hloop j). lia.
Qed.

(** More rounds do not change a result already reached. *)
Lemma allocate_loop_more_fuel (a b : nat) l res :
  (a ≤ b)%nat → allocate_loop a l = Some res → allocate_loop b l = Some res.
Proof.
  revert b l. induction a as [| a IH]; intros b l Hab Ha; [done |].
  destruct b as [| b]; [lia |]. simpl in *.
  destruct (ran_ue_id_in_use _ _); [| done].
  apply (IH b); [lia | done].
Qed.

(** Termination of the search: with the counter within [min, max] and
    fewer devices than identifiers in that range, the loop leaves within
    one round more than there are devices. *)
Lemma allocate_loop_terminates fuel l :
  0 ≤ ran_ue_id_min ≤ ran_ue_id_max → ran_ue_id_max < 2 ^ 64 →
  ran_ue_id_min ≤ next_ran_ue_id l ≤ ran_ue_id_max →
  Z.of_nat (base.size (ue_index_to_ran_ue_id l))
    < ran_ue_id_max - ran_ue_id_min + 1 →
  (base.size (ue_index_to_ran_ue_id l) < fuel)%nat →
  is_Some (allocate_loop fuel l).
Proof.
  intros Hmin Hmax Hn Hroom Hfuel.
  set (m := ue_index_to_ran_ue_id l) in *.
  set (k := S (base.size m)).
  assert (is_Some (allocate_loop k l)) as [[r l'] Hk].
  { destruct (allocate_loop k l) as [res|] eqn:Hloop; [by eexists |].
    exfalso.
    pose proof (allocate_loop_None _ _ Hloop) as Hused.
    set (visited := (λ j, Nat.iter j next_id (next_ran_ue_id l)) <$> seq 0 k).
    assert (NoDup visited) as Hnd.
    { apply NoDup_fmap_2_strong; [| apply NoDup_seq].
      intros i j [_ Hi]%elem_of_seq [_ Hj]%elem_of_seq Heq.
      apply (iter_next_id_inj i j (next_ran_ue_id l)); try done; unfold k in *; lia. }
    assert (visited ⊆+ (map_to_list m).*2) as Hsub.
    { apply NoDup_submseteq; [done |].
      intros x (j & -> & [_ Hj]%elem_of_seq)%list_elem_of_fmap.
      destruct (Hused j ltac:(lia)) as [idx Hidx].
      apply list_elem_of_fmap. exists (idx, Nat.iter j next_id (next_ran_ue_id l)).
      split; [done |]. by apply elem_of_map_to_list. }
    apply submseteq_length in Hsub.
    unfold visited in Hsub.
    rewrite !length_fmap, length_seq, length_map_to_list in Hsub.
    unfold k in Hsub. lia. }
  exists (r, l'). apply (allocate_loop_more_fuel k); [unfold k; lia | done].
Qed.

Lemma allocate_ran_ue_id_returns fuel l :
  0 ≤ ran_ue_id_min ≤ ran_ue_id_max → ran_ue_id_max < 2 ^ 64 →
  ran_ue_id_min ≤ next_ran_ue_id l ≤ ran_ue_id_max →
  Z.of_nat (base.size (ue_index_to_ran_ue_id l))
    < ran_ue_id_max - ran_ue_id_min + 1 →
  (base.size (ue_index_to_ran_ue_id l) < fuel)%nat →
  is_Some (allocate_ran_ue_id fuel l).
Proof.
  intros. unfold allocate_ran_ue_id.
  case_bool_decide; [by eexists |]. by apply allocate_loop_terminates.
Qed.

(** C8. When the index map already holds [MAX_NOF_RAN_UES] devices, the
    next allocation attempt returns the invalid RAN-UE-ID and leaves the
    whole list (the contexts, the three lookup maps and the counter) as it
    was, whatever the number of loop rounds allowed. *)
Theorem allocate_ran_ue_id_at_capacity fuel l :
  Z.of_nat (base.size (ue_index_to_ran_ue_id l)) = MAX_NOF_RAN_UES →
  allocate_ran_ue_id fuel l = Some (ran_ue_id_invalid, l).
Proof.
  intros Hfull. unfold allocate_ran_ue_id.
  by rewrite bool_decide_eq_true_2.
Qed.

(** The same for a consistent list that [size()] reports as full. *)
Lemma allocate_ran_ue_id_full_list fuel l :
  consistent l →
  Z.of_nat (size l) = MAX_NOF_RAN_UES →
  allocate_ran_ue_id fuel l = Some (ran_ue_id_invalid, l).
Proof.
  intros Hcons Hfull. unfold allocate_ran_ue_id.
  rewrite bool_decide_eq_true_2; [done |].
  by rewrite <- consistent_size.
Qed.

(** C10. Whenever [allocate_ran_ue_id] returns an identifier other than
    the invalid one, no UE index of the list maps to that identifier (and
    in a consistent list no context is stored under it), the three maps
    are untouched, and the counter is left one step past the returned
    identifier: at [ran_ue_id_t::max] it restarts from [ran_ue_id_t::min],
    so that a counter within [min, max] stays within [min, max]. *)
Theorem allocate_ran_ue_id_fresh fuel l r l' :
  allocate_ran_ue_id fuel l = Some (r, l') →
  r ≠ ran_ue_id_invalid →
  (∀ idx, ue_index_to_ran_ue_id l !! idx ≠ Some r) ∧
  (consistent l → contains_ran_ue_id l r = false) ∧
  ue_index_to_ran_ue_id l' = ue_index_to_ran_ue_id l ∧
  amf_ue_id_to_ran_ue_id l' = amf_ue_id_to_ran_ue_id l ∧
  ues l' = ues l ∧
  next_ran_ue_id l' =
    (if bool_decide (r = ran_ue_id_max) then ran_ue_id_min
     else (r + 1) mod 2 ^ 64) ∧
  (0 ≤ ran_ue_id_min ≤ ran_ue_id_max → ran_ue_id_max < 2 ^ 64 →
   ran_ue_id_min ≤ next_ran_ue_id l ≤ ran_ue_id_max →
   ran_ue_id_min ≤ r ≤ ran_ue_id_max ∧
   ran_ue_id_min ≤ next_ran_ue_id l' ≤ ran_ue_id_max).
Proof.
  unfold allocate_ran_ue_id. intros Halloc Hvalid.
  case_bool_decide; [by simplify_eq |].
  apply allocate_loop_Some in Halloc
    as (Hfresh & Hidx & Hamf & Hues & Hnext & k & _ & Hr).
  split; [done |]. split.
  - intros Hcons. apply consistent_alt in Hcons as (_ & _ & _ & Hctx).
    unfold contains_ran_ue_id.
    destruct (ues l !! r) as [ue|] eqn:Hue; [| done].
    destruct (Hctx _ _ Hue) as (_ & Hback & _). by apply Hfresh in Hback.
  - repeat (split; [done |]). intros Hmin Hmax Hrange.
    assert (ran_ue_id_min ≤ r ≤ ran_ue_id_max) as Hr_range
      by (subst r; by apply iter_next_id_in_range).
    split; [done |]. rewrite Hnext. by apply next_id_in_range.
Qed.

(** *** Further properties of the list operations *)

(** [add_ue] with an unused UE index and an unused RAN-UE-ID: the call
    returns, the list stays consistent and holds one context more, the new
    context (no AMF-UE-ID yet) is the one found under the index and under
    the RAN-UE-ID, and no other lookup changes. *)
Theorem add_ue_unused_identifiers idx ran l :
  consistent l →
  idx ≠ ue_index_invalid →
  ran ≠ ran_ue_id_invalid →
  ue_index_to_ran_ue_id l !! idx = None →
  ues l !! ran = None →
  ∃ l',
    add_ue idx ran l = Some l' ∧
    consistent l' ∧
    size l' = S (size l) ∧
    at_ue_index l' idx = Some (new_ue_context idx ran) ∧
    at_ran_ue_id l' ran = Some (new_ue_context idx ran) ∧
    (∀ i, i ≠ idx → at_ue_index l' i = at_ue_index l i) ∧
    (∀ r, r ≠ ran → at_ran_ue_id l' r = at_ran_ue_id l r) ∧
    (∀ a, at_amf_ue_id l' a = at_amf_ue_id l a).
Proof.
  intros Hcons Hidx Hran Hi Hr.
  pose proof Hcons as (_ & Hindex & Hamf & _)%consistent_alt.
  destruct (add_ue idx ran l) as [l'|] eqn:Hadd; last first.
  { unfold add_ue in Hadd. by rewrite !bool_decide_eq_false_2 in Hadd. }
  exists l'. split; [done |].
  split; [by eapply add_ue_consistent |].
  unfold add_ue in Hadd. rewrite !bool_decide_eq_false_2 in Hadd by done.
  apply (inj Some) in Hadd. subst l'.
  unfold size, at_ue_index, at_ran_ue_id, at_amf_ue_id. simpl.
  rewrite !emplace_fresh by done.
  split; [by apply map_size_insert_None |].
  split; [by rewrite !lookup_insert_eq |].
  split; [by rewrite lookup_insert_eq |].
  split; [| split].
  - intros i Hne. rewrite lookup_insert_ne by done.
    destruct (ue_index_to_ran_ue_id l !! i) as [r|] eqn:Hl; [| done].
    destruct (Hindex _ _ Hl) as (u & Hu & _).
    rewrite lookup_insert_ne; [done | congruence].
  - intros r Hne. by rewrite lookup_insert_ne.
  - intros a. destruct (amf_ue_id_to_ran_ue_id l !! a) as [r|] eqn:Hl; [| done].
    destruct (Hamf _ _ Hl) as (u & Hu & _).
    rewrite lookup_insert_ne; [done | congruence].
Qed.

(** [add_ue] keeps a consistent list consistent exactly when the UE index
    and the RAN-UE-ID are both unused or both already present; in the
    latter case the call changes nothing. *)
Theorem add_ue_consistent_iff idx ran l l' :
  consistent l →
  add_ue idx ran l = Some l' →
  (consistent l' ↔
   (is_Some (ue_index_to_ran_ue_id l !! idx) ↔ is_Some (ues l !! ran))) ∧
  (is_Some (ue_index_to_ran_ue_id l !! idx) → is_Some (ues l !! ran) → l' = l).
Proof.
  intros Hcons Hadd.
  pose proof Hcons as (_ & Hindex & _ & Hues)%consistent_alt.
  pose proof Hadd as Hadd'.
  unfold add_ue in Hadd'. repeat case_bool_decide; try done.
  apply (inj Some) in Hadd'.
  destruct (ue_index_to_ran_ue_id l !! idx) as [r0|] eqn:Hi;
    destruct (ues l !! ran) as [ue|] eqn:Hr.
  - assert (l' = l) as ->.
    { subst l'. rewrite !emplace_present by (by eexists). by destruct l. }
    split; [| done]. split; [done |]. by intros _.
  - split; [| by intros _ [? ?]]. split.
    + intros (_ & _ & _ & Hues')%consistent_alt. exfalso.
      subst l'. simpl in Hues'.
      rewrite (emplace_fresh ran) in Hues' by done.
      rewrite emplace_present in Hues' by (by eexists).
      destruct (Hues' ran (new_ue_context idx ran)) as (_ & Hback & _);
        [apply lookup_insert_eq |].
      simpl in Hback. rewrite Hi in Hback. simplify_eq.
      destruct (Hindex _ _ Hi) as (u & Hu & _). congruence.
    + intros [Hl _]. exfalso.
      destruct Hl as [? ?]; [by eexists | done].
  - split; [| by intros [? ?]]. split.
    + intros (_ & Hindex' & _ & _)%consistent_alt. exfalso.
      subst l'. simpl in Hindex'.
      rewrite (emplace_fresh idx) in Hindex' by done.
      rewrite emplace_present in Hindex' by (by eexists).
      destruct (Hindex' idx ran) as (u & Hu & Hu_idx);
        [apply lookup_insert_eq |].
      rewrite Hr in Hu. simplify_eq.
      destruct (Hues _ _ Hr) as (_ & Hback & _). congruence.
    + intros [_ Hl]. exfalso.
      destruct Hl as [? ?]; [by eexists | done].
  - split; [| by intros [? ?]]. split.
    + intros _. split; by intros [? ?].
    + intros _. by eapply add_ue_consistent.
Qed.

(** [remove_ue_context] of a bound UE index in a consistent list releases
    exactly that device: the list stays consistent and holds one context
    less, none of the device's three identifiers resolves any more, and no
    lookup of another device changes. *)
Theorem remove_ue_context_releases idx ran ue l :
  consistent l →
  idx ≠ ue_index_invalid →
  ue_index_to_ran_ue_id l !! idx = Some ran →
  ues l !! ran = Some ue →
  ∃ l',
    remove_ue_context idx l = Some l' ∧
    consistent l' ∧
    S (size l') = size l ∧
    contains_ue_index l' idx = false ∧
    contains_ran_ue_id l' ran = false ∧
    contains_amf_ue_id l' (amf_ue_id (ue_ids ue)) = false ∧
    (∀ i, i ≠ idx → at_ue_index l' i = at_ue_index l i) ∧
    (∀ r, r ≠ ran → at_ran_ue_id l' r = at_ran_ue_id l r) ∧
    (∀ a, a ≠ amf_ue_id (ue_ids ue) → at_amf_ue_id l' a = at_amf_ue_id l a).
Proof.
  intros Hcons Hidx Hi Hue.
  pose proof Hcons as (Hinv & Hindex & Hamf & Hues)%consistent_alt.
  destruct (remove_ue_context idx l) as [l'|] eqn:Hrem; last first.
  { unfold remove_ue_context in Hrem.
    by rewrite bool_decide_eq_false_2, Hi, Hue in Hrem. }
  exists l'. split; [done |].
  split; [by eapply remove_ue_context_consistent |].
  unfold remove_ue_context in Hrem.
  rewrite bool_decide_eq_false_2, Hi, Hue in Hrem by done.
  apply (inj Some) in Hrem. subst l'.
  unfold size, contains_ue_index, contains_ran_ue_id, contains_amf_ue_id,
    at_ue_index, at_ran_ue_id, at_amf_ue_id, erase. simpl.
  assert (∀ a, a ≠ amf_ue_id (ue_ids ue) →
               (if bool_decide (amf_ue_id (ue_ids ue) ≠ amf_ue_id_invalid)
                then delete (amf_ue_id (ue_ids ue)) (amf_ue_id_to_ran_ue_id l)
                else amf_ue_id_to_ran_ue_id l) !! a
               = amf_ue_id_to_ran_ue_id l !! a) as Hother.
  { intros a Hne. case_bool_decide; [by rewrite lookup_delete_ne | done]. }
  split.
  { rewrite map_size_delete_Some by (by eexists).
    assert (base.size (ues l) ≠ 0%nat); [| lia].
    intros Hzero%map_size_empty_inv. by rewrite Hzero, lookup_empty in Hue. }
  split; [by rewrite lookup_delete_eq |].
  split; [by rewrite lookup_delete_eq |].
  split.
  { case_bool_decide as Hvalid.
    - by rewrite lookup_delete_eq.
    - rewrite Hvalid. by rewrite Hinv. }
  split; [| split].
  - intros i Hne. rewrite lookup_delete_ne by done.
    destruct (ue_index_to_ran_ue_id l !! i) as [r|] eqn:Hl; [| done].
    destruct (Hindex _ _ Hl) as (u & Hu & Hu_idx).
    destruct (Hindex _ _ Hi) as (u0 & Hu0 & Hu0_idx).
    rewrite lookup_delete_ne; [done |]. intros ->. simplify_eq.
  - intros r Hne. by rewrite lookup_delete_ne.
  - intros a Hne. rewrite Hother by done.
    destruct (amf_ue_id_to_ran_ue_id l !! a) as [r|] eqn:Hl; [| done].
    destruct (Hamf _ _ Hl) as (u & Hu & Hu_amf).
    rewrite lookup_delete_ne; [done |]. intros ->. simplify_eq.
Qed.

(** A second [remove_ue_context] of the same UE index changes nothing: the
    index is then unknown and the call returns at once. *)
Theorem remove_ue_context_twice idx l l' :
  remove_ue_context idx l = Some l' →
  remove_ue_context idx l' = Some l'.
Proof.
  unfold remove_ue_context. intros Hrem.
  case_bool_decide; [done |].
  destruct (ue_index_to_ran_ue_id l !! idx) as [ran|] eqn:Hi.
  - assert (ue_index_to_ran_ue_id l' !! idx = None) as ->; [| done].
    destruct (ues l !! ran); apply (inj Some) in Hrem; subst l'; simpl;
      apply lookup_delete_eq.
  - apply (inj Some) in Hrem. subst l'. by rewrite Hi.
Qed.

(** [update_ue_index] called with the new index equal to the old one: the
    [emplace] finds the index bound and the [erase] then removes it, so the
    context stays stored but is no longer found by its UE index, and
    [remove_ue_context] by that index does not release it. *)
Theorem update_ue_index_same_index_unbinds idx ran l :
  idx ≠ ue_index_invalid →
  ue_index_to_ran_ue_id l !! idx = Some ran →
  is_Some (ues l !! ran) →
  ∃ l',
    update_ue_index idx idx l = Some l' ∧
    contains_ue_index l' idx = false ∧
    contains_ran_ue_id l' ran = true ∧
    size l' = size l ∧
    remove_ue_context idx l' = Some l'.
Proof.
  intros Hidx Hi [ue Hue].
  unfold update_ue_index.
  rewrite !bool_decide_eq_false_2, Hi, Hue by done.
  eexists. split; [reflexivity |].
  unfold contains_ue_index, contains_ran_ue_id, size, remove_ue_context, erase.
  simpl. rewrite lookup_delete_eq, lookup_insert_eq.
  rewrite bool_decide_eq_false_2 by done.
  split_and!; try done.
  rewrite map_size_insert_Some; [done | by eexists].
Qed.

(** Moving a context to an unused UE index and back gives the list back,
    for a context whose logger prefix shows its identifiers. *)
Theorem update_ue_index_there_and_back new_ue_index old_ue_index ran ue l :
  consistent l →
  new_ue_index ≠ ue_index_invalid →
  old_ue_index ≠ ue_index_invalid →
  ue_index_to_ran_ue_id l !! new_ue_index = None →
  ue_index_to_ran_ue_id l !! old_ue_index = Some ran →
  ues l !! ran = Some ue →
  logger ue = ue_ids ue →
  ∃ l1,
    update_ue_index new_ue_index old_ue_index l = Some l1 ∧
    update_ue_index old_ue_index new_ue_index l1 = Some l.
Proof.
  intros Hcons Hnew Hold Hfree Hbound Hue Hlog.
  pose proof Hcons as (_ & Hindex & _ & Hues)%consistent_alt.
  destruct (Hues _ _ Hue) as (Hran & _ & _).
  destruct (Hindex _ _ Hbound) as (ue0 & Hue0 & Hidx0).
  assert (ue0 = ue) as -> by congruence.
  assert (new_ue_index ≠ old_ue_index) as Hne by congruence.
  unfold update_ue_index at 1.
  rewrite !bool_decide_eq_false_2, Hbound, Hue by done.
  eexists. split; [reflexivity |].
  unfold update_ue_index, erase. simpl.
  rewrite !bool_decide_eq_false_2 by done.
  rewrite (emplace_fresh new_ue_index) by done.
  rewrite lookup_delete_ne, !lookup_insert_eq by done.
  f_equal. destruct l as [next index_map amf_map contexts]. simpl in *. f_equal.
  - rewrite emplace_fresh by apply lookup_delete_eq.
    apply map_eq. intros i.
    destruct (decide (i = new_ue_index)) as [-> |].
    { by rewrite lookup_delete_eq. }
    rewrite lookup_delete_ne by done.
    destruct (decide (i = old_ue_index)) as [-> |].
    { by rewrite lookup_insert_eq. }
    by rewrite lookup_insert_ne, lookup_delete_ne, lookup_insert_ne by done.
  - rewrite insert_insert_eq. apply insert_id. rewrite Hue. f_equal.
    destruct ue as [[i r a] ? ? ? ? lg]. simpl in *. by subst.
Qed.

(** Of two [update_amf_ue_id] calls for the same context the last one
    wins: with the first AMF-UE-ID unused before, the list after both calls
    is the list after the second call alone. *)
Theorem update_amf_ue_id_last_wins ran amf1 amf2 l l1 l2 :
  update_amf_ue_id ran amf1 l = Some l1 →
  update_amf_ue_id ran amf2 l1 = Some l2 →
  amf1 ≠ amf2 →
  amf_ue_id_to_ran_ue_id l !! amf1 = None →
  (∀ ue, ues l !! ran = Some ue → amf_ue_id (ue_ids ue) ≠ amf2) →
  update_amf_ue_id ran amf2 l = Some l2.
Proof.
  intros H1 H2 Hne Hfree Hcur.
  assert (is_Some (update_amf_ue_id ran amf1 l)) as (Hv1 & Hran & _)%update_amf_ue_id_is_Some
    by eauto.
  assert (is_Some (update_amf_ue_id ran amf2 l1)) as (Hv2 & _ & _)%update_amf_ue_id_is_Some
    by eauto.
  unfold update_amf_ue_id in H1.
  rewrite !bool_decide_eq_false_2 in H1 by done.
  destruct (ues l !! ran) as [ue|] eqn:Hue; [| done].
  specialize (Hcur ue eq_refl).
  destruct (decide (amf_ue_id (ue_ids ue) = amf1)) as [Hsame | Hdiff].
  { rewrite bool_decide_eq_true_2 in H1 by done. by simplify_eq. }
  rewrite (bool_decide_eq_false_2 _ Hdiff) in H1.
  unfold update_amf_ue_id.
  rewrite !bool_decide_eq_false_2, Hue by done.
  rewrite (bool_decide_eq_false_2 _ Hcur).
  destruct (decide (amf_ue_id (ue_ids ue) = amf_ue_id_invalid)) as [Hinv | Hset].
  - rewrite bool_decide_eq_true_2 in H1 by done.
    rewrite bool_decide_eq_true_2 by done.
    apply (inj Some) in H1. subst l1.
    unfold update_amf_ue_id in H2. simpl in H2.
    rewrite !bool_decide_eq_false_2, lookup_insert_eq in H2 by done.
    simpl in H2.
    rewrite !bool_decide_eq_false_2, bool_decide_eq_true_2 in H2 by done.
    rewrite <- H2. f_equal. f_equal.
    + rewrite (emplace_fresh amf1) by done. unfold erase, emplace.
      rewrite lookup_insert_ne by done.
      destruct (amf_ue_id_to_ran_ue_id l !! amf2) eqn:Hl2.
      * by rewrite delete_insert_id.
      * apply map_eq. intros a.
        destruct (decide (a = amf1)) as [-> |].
        { rewrite lookup_delete_eq, lookup_insert_ne by done. done. }
        rewrite lookup_delete_ne by done.
        destruct (decide (a = amf2)) as [-> |].
        { by rewrite !lookup_insert_eq. }
        by rewrite !lookup_insert_ne by done.
    + by rewrite insert_insert_eq.
  - rewrite (bool_decide_eq_false_2 _ Hset), bool_decide_eq_true_2 in H1 by done.
    rewrite (bool_decide_eq_false_2 _ Hset), bool_decide_eq_true_2 by done.
    apply (inj Some) in H1. subst l1.
    unfold update_amf_ue_id in H2. simpl in H2.
    rewrite !bool_decide_eq_false_2, lookup_insert_eq in H2 by done.
    simpl in H2.
    rewrite !bool_decide_eq_false_2, bool_decide_eq_true_2 in H2 by done.
    rewrite <- H2. f_equal. f_equal.
    + rewrite (emplace_fresh amf1) by done. unfold erase, emplace.
      rewrite lookup_delete_ne, lookup_insert_ne by done.
      apply map_eq. intros a.
      destruct (decide (a = amf_ue_id (ue_ids ue))) as [-> |].
      { destruct (amf_ue_id_to_ran_ue_id l !! amf2);
          rewrite lookup_delete_eq;
          rewrite lookup_delete_ne by done;
          [| rewrite lookup_insert_ne by done]; by rewrite lookup_delete_eq. }
      destruct (decide (a = amf1)) as [-> |].
      { destruct (amf_ue_id_to_ran_ue_id l !! amf2);
          rewrite lookup_delete_eq, lookup_delete_ne by done;
          [| rewrite lookup_insert_ne by done]; done. }
      destruct (amf_ue_id_to_ran_ue_id l !! amf2);
        rewrite !lookup_delete_ne by done.
      * by rewrite lookup_insert_ne.
      * destruct (decide (a = amf2)) as [-> |].
        { by rewrite !lookup_insert_eq. }
        by rewrite !lookup_insert_ne, lookup_delete_ne, lookup_insert_ne by done.
    + by rewrite insert_insert_eq.
Qed.

(** Releasing a device right after adding it gives the list back. *)
Theorem add_ue_then_remove_restores idx ran l :
  idx ≠ ue_index_invalid →
  ran ≠ ran_ue_id_invalid →
  ue_index_to_ran_ue_id l !! idx = None →
  ues l !! ran = None →
  ∃ l1, add_ue idx ran l = Some l1 ∧ remove_ue_context idx l1 = Some l.
Proof.
  intros Hidx Hran Hi Hr.
  unfold add_ue. rewrite !bool_decide_eq_false_2 by done.
  eexists. split; [reflexivity |].
  unfold remove_ue_context. simpl.
  rewrite bool_decide_eq_false_2, lookup_emplace_eq, Hi by done. simpl.
  rewrite lookup_emplace_eq, Hr. simpl.
  rewrite bool_decide_eq_false_2 by (intros Hne; by apply Hne).
  rewrite !erase_emplace_fresh by done. by destruct l.
Qed.

(** [size()] of a consistent list is the number of bound UE indexes, and at
    most that many AMF-UE-IDs are bound. *)
Theorem size_counts_bound_identifiers l :
  consistent l →
  size l = base.size (ue_index_to_ran_ue_id l) ∧
  (base.size (amf_ue_id_to_ran_ue_id l) ≤ size l)%nat.
Proof.
  intros Hcons. split; [by apply consistent_size |].
  apply consistent_alt in Hcons as (_ & _ & Hamf & _).
  unfold size. rewrite <- !length_map_to_list.
  rewrite <- (length_fmap fst (map_to_list (ues l))).
  rewrite <- (length_fmap snd (map_to_list (amf_ue_id_to_ran_ue_id l))).
  apply submseteq_length, NoDup_submseteq.
  - apply NoDup_fmap_2_strong; [| apply NoDup_map_to_list].
    intros [a r] [a' r'] Hin%elem_of_map_to_list Hin'%elem_of_map_to_list.
    simpl. intros ->.
    destruct (Hamf _ _ Hin) as (u & Hu & ?).
    destruct (Hamf _ _ Hin') as (u' & Hu' & ?). by simplify_eq.
  - intros r ([a r'] & -> & Hin%elem_of_map_to_list)%list_elem_of_fmap.
    destruct (Hamf _ _ Hin) as (u & Hu & _). simpl.
    apply list_elem_of_fmap. exists (r', u).
    split; [done |]. by apply elem_of_map_to_list.
Qed.

(** *** More on [allocate_ran_ue_id] *)

Lemma allocate_ran_ue_id_from_loop fuel l r l' :
  allocate_ran_ue_id fuel l = Some (r, l') →
  r ≠ ran_ue_id_invalid →
  allocate_loop fuel l = Some (r, l').
Proof.
  unfold allocate_ran_ue_id. intros Halloc Hvalid.
  case_bool_decide; [by simplify_eq | done].
Qed.

(** The search passes over counter values that are in use only. *)
Lemma allocate_loop_skips fuel l r l' :
  allocate_loop fuel l = Some (r, l') →
  ∃ k : nat,
    r = Nat.iter k next_id (next_ran_ue_id l) ∧
    ∀ j : nat, (j < k)%nat →
      ∃ idx, ue_index_to_ran_ue_id l !! idx
             = Some (Nat.iter j next_id (next_ran_ue_id l)).
Proof.
  revert l. induction fuel as [| fuel IH]; intros l Hloop; [done |].
  simpl in Hloop.
  destruct (ran_ue_id_in_use _ _) eqn:Huse.
  - apply IH in Hloop as (k & Hr & Hskipped). simpl in *.
    exists (S k). split; [by rewrite Nat.iter_succ_r |].
    intros [| j] Hj.
    + simpl. by apply ran_ue_id_in_use_true.
    + rewrite Nat.iter_succ_r. apply Hskipped. lia.
  - simplify_eq. exists 0%nat. split; [done |]. intros j Hj. lia.
Qed.

(** [allocate_ran_ue_id] returns the first identifier, counting from the
    counter, that no UE index maps to: every counter value before it is in
    use. *)
Theorem allocate_ran_ue_id_first_unused fuel l r l' :
  allocate_ran_ue_id fuel l = Some (r, l') →
  r ≠ ran_ue_id_invalid →
  ∃ k : nat,
    r = Nat.iter k next_id (next_ran_ue_id l) ∧
    (∀ idx, ue_index_to_ran_ue_id l !! idx ≠ Some r) ∧
    ∀ j : nat, (j < k)%nat →
      ∃ idx, ue_index_to_ran_ue_id l !! idx
             = Some (Nat.iter j next_id (next_ran_ue_id l)).
Proof.
  intros Halloc Hvalid.
  apply allocate_ran_ue_id_from_loop in Halloc; [| done].
  destruct (allocate_loop_skips _ _ _ _ Halloc) as (k & Hr & Hskipped).
  destruct (allocate_loop_Some _ _ _ _ Halloc) as (Hfresh & _).
  by exists k.
Qed.

(** With the counter within [min, max], fewer devices than identifiers in
    that range and the list not full, [allocate_ran_ue_id] returns within
    one round more than there are devices, and what it returns is an
    identifier of the range that no UE index maps to. *)
Theorem allocate_ran_ue_id_finds_identifier l :
  0 ≤ ran_ue_id_min ≤ ran_ue_id_max →
  ran_ue_id_max < 2 ^ 64 →
  ran_ue_id_min ≤ next_ran_ue_id l ≤ ran_ue_id_max →
  Z.of_nat (base.size (ue_index_to_ran_ue_id l))
    < ran_ue_id_max - ran_ue_id_min + 1 →
  Z.of_nat (base.size (ue_index_to_ran_ue_id l)) ≠ MAX_NOF_RAN_UES →
  ∃ r l',
    allocate_ran_ue_id (S (base.size (ue_index_to_ran_ue_id l))) l
    = Some (r, l') ∧
    ran_ue_id_min ≤ r ≤ ran_ue_id_max ∧
    (∀ idx, ue_index_to_ran_ue_id l !! idx ≠ Some r).
Proof.
  intros Hmin Hmax Hnext Hroom Hfull.
  unfold allocate_ran_ue_id. rewrite bool_decide_eq_false_2 by done.
  destruct (allocate_loop_terminates
              (S (base.size (ue_index_to_ran_ue_id l))) l)
    as [[r l'] Hloop]; try done; [lia |].
  exists r, l'. split; [done |].
  destruct (allocate_loop_Some _ _ _ _ Hloop)
    as (Hfresh & _ & _ & _ & _ & k & _ & ->).
  split; [by apply iter_next_id_in_range | done].
Qed.

(** An identifier from [allocate_ran_ue_id] can be handed to [add_ue]: with
    an unused UE index the new context joins a consistent list, which stays
    consistent, and a later allocation does not return the same identifier
    again. *)
Theorem allocate_then_add_ue fuel idx r l l1 :
  consistent l →
  allocate_ran_ue_id fuel l = Some (r, l1) →
  r ≠ ran_ue_id_invalid →
  idx ≠ ue_index_invalid →
  ue_index_to_ran_ue_id l !! idx = None →
  ∃ l2,
    add_ue idx r l1 = Some l2 ∧
    consistent l2 ∧
    at_ue_index l2 idx = Some (new_ue_context idx r) ∧
    ∀ fuel' r' l3,
      allocate_ran_ue_id fuel' l2 = Some (r', l3) →
      r' ≠ ran_ue_id_invalid → r' ≠ r.
Proof.
  intros Hcons Halloc Hvalid Hidx Hfree.
  apply allocate_ran_ue_id_from_loop in Halloc; [| done].
  destruct (allocate_loop_Some _ _ _ _ Halloc)
    as (Hunused & Hindex_map & Hamf_map & Hues_map & _).
  assert (ues l !! r = None) as Hr.
  { apply consistent_alt in Hcons as (_ & _ & _ & Hues).
    destruct (ues l !! r) as [ue|] eqn:Hue; [| done].
    destruct (Hues _ _ Hue) as (_ & Hback & _). by apply Hunused in Hback. }
  assert (consistent l1) as Hcons1.
  { unfold consistent in *. by rewrite Hindex_map, Hamf_map, Hues_map. }
  destruct (add_ue idx r l1) as [l2|] eqn:Hadd; last first.
  { unfold add_ue in Hadd. by rewrite !bool_decide_eq_false_2 in Hadd. }
  exists l2. split; [done |].
  assert (ue_index_to_ran_ue_id l2 !! idx = Some r ∧
          ues l2 !! r = Some (new_ue_context idx r)) as [Hi2 Hr2].
  { unfold add_ue in Hadd. rewrite !bool_decide_eq_false_2 in Hadd by done.
    apply (inj Some) in Hadd. subst l2. simpl.
    rewrite !lookup_emplace_eq, Hindex_map, Hues_map, Hfree, Hr. done. }
  split.
  { eapply add_ue_consistent; [exact Hcons1 | | | exact Hadd].
    - by rewrite Hindex_map.
    - by rewrite Hues_map. }
  split.
  { unfold at_ue_index. by rewrite Hi2. }
  intros fuel' r' l3 Halloc' Hvalid' ->.
  apply allocate_ran_ue_id_from_loop in Halloc'; [| done].
  destruct (allocate_loop_Some _ _ _ _ Halloc') as (Hunused' & _).
  by apply Hunused' in Hi2.
Qed.

(** *** Invariants of the lists built through the operations *)

(** Every list built from a fresh one through the operations, with unused
    identifiers handed to [add_ue], [update_amf_ue_id] and
    [update_ue_index], is consistent, has its RAN-UE-ID counter within
    [min, max], and the logger prefix of each context shows the context's
    identifiers. *)
Theorem built_invariants l :
  0 ≤ ran_ue_id_min ≤ ran_ue_id_max →
  ran_ue_id_max < 2 ^ 64 →
  built l →
  consistent l ∧
  ran_ue_id_min ≤ next_ran_ue_id l ≤ ran_ue_id_max ∧
  ∀ ran ue, ues l !! ran = Some ue → logger ue = ue_ids ue.
Proof.
  intros Hmin Hmax Hbuilt.
  induction Hbuilt as
    [ | idx ran l l' _ (Hcons & Hnext & Hlog) Hi Hr Hadd
      | ran amf l l' _ (Hcons & Hnext & Hlog) Hunused Hupd
      | new_ue_index old_ue_index l l' _ (Hcons & Hnext & Hlog) Hfree Hupd
      | idx l l' _ (Hcons & Hnext & Hlog) Hrem
      | fuel r l l' _ (Hcons & Hnext & Hlog) Halloc ].
  - split; [apply consistent_empty_list |]. split; [simpl; lia |].
    intros ran ue Hue. simpl in Hue. by rewrite lookup_empty in Hue.
  - split; [by eapply add_ue_consistent |].
    unfold add_ue in Hadd. repeat case_bool_decide; try done.
    apply (inj Some) in Hadd. subst l'. simpl. split; [done |].
    intros r ue. rewrite emplace_fresh by done.
    destruct (decide (r = ran)) as [-> |].
    + rewrite lookup_insert_eq. by intros ?; simplify_eq.
    + rewrite lookup_insert_ne by done. apply Hlog.
  - split; [by eapply update_amf_ue_id_consistent |].
    destruct (update_amf_ue_id_index_map _ _ _ _ Hupd) as [_ ->].
    split; [done |].
    apply consistent_alt in Hcons as (_ & _ & _ & Hues).
    unfold update_amf_ue_id in Hupd. repeat case_bool_decide; try done.
    destruct (ues l !! ran) as [ue0|] eqn:Hue0; [| done].
    destruct (Hues _ _ Hue0) as (Hran & _ & _).
    repeat case_bool_decide; apply (inj Some) in Hupd; subst l'; simpl;
      try done; intros r ue;
      (destruct (decide (r = ran)) as [-> |];
       [ rewrite lookup_insert_eq; intros ?; simplify_eq/=; by rewrite ?Hran
       | rewrite lookup_insert_ne by done; apply Hlog ]).
  - split; [by eapply update_ue_index_consistent |].
    apply consistent_alt in Hcons as (_ & _ & _ & Hues).
    unfold update_ue_index in Hupd. repeat case_bool_decide; try done.
    destruct (ue_index_to_ran_ue_id l !! old_ue_index) as [ran|]; [| done].
    destruct (ues l !! ran) as [ue0|] eqn:Hue0; [| done].
    destruct (Hues _ _ Hue0) as (Hran & _ & _).
    apply (inj Some) in Hupd. subst l'. simpl. split; [done |].
    intros r ue. destruct (decide (r = ran)) as [-> |].
    + rewrite lookup_insert_eq. by intros ?; simplify_eq/=.
    + rewrite lookup_insert_ne by done. apply Hlog.
  - split; [by eapply remove_ue_context_consistent |].
    unfold remove_ue_context in Hrem. case_bool_decide; [done |].
    destruct (ue_index_to_ran_ue_id l !! idx) as [ran|];
      [| by simplify_eq].
    destruct (ues l !! ran) as [ue0|]; apply (inj Some) in Hrem; subst l';
      simpl; (split; [done |]); [| done].
    unfold erase. intros r ue [_ Hue]%lookup_delete_Some. by eapply Hlog.
  - unfold allocate_ran_ue_id in Halloc.
    case_bool_decide; [by simplify_eq |].
    destruct (allocate_loop_Some _ _ _ _ Halloc)
      as (_ & Hindex_map & Hamf_map & Hues_map & Hcounter & k & _ & ->).
    split; [| split].
    + unfold consistent in *. by rewrite Hindex_map, Hamf_map, Hues_map.
    + rewrite Hcounter. apply next_id_in_range; try done.
      by apply iter_next_id_in_range.
    + by rewrite Hues_map.
Qed.

End facts.

(** *** The operations on concrete lists *)

Section examples.
#[local] Existing Instance example_types.

(** The example lists are reached through the public operations. *)
Example one_ue_reached : add_ue 1 10 empty_list = Some one_ue.
Proof. reflexivity. Qed.

Example two_ues_reached :
  (add_ue 1 10 empty_list ≫= add_ue 2 20) ≫= update_amf_ue_id 10 5
  = Some two_ues.
Proof. reflexivity. Qed.

Example one_ue_consistent : consistent one_ue.
Proof. apply (bool_decide_unpack _). vm_compute. exact I. Qed.

Example two_ues_consistent : consistent two_ues.
Proof. apply (bool_decide_unpack _). vm_compute. exact I. Qed.

(** C6, as stated, fails. On the consistent list [two_ues] all assertions
    of [update_amf_ue_id 20 5] hold, yet afterwards the context of
    RAN-UE-ID 20 carries AMF-UE-ID 5 while the lookup by AMF-UE-ID 5 gives
    the context of RAN-UE-ID 10. Likewise all assertions of
    [update_ue_index 2 1] hold, yet afterwards the context of RAN-UE-ID 10
    carries UE index 2 while the lookup by UE index 2 gives the context of
    RAN-UE-ID 20. In both cases [emplace] finds the key bound and leaves
    it. *)
Lemma identity_update_to_bound_id_counterexample :
  consistent two_ues ∧
  (∃ l' ue',
     update_amf_ue_id 20 5 two_ues = Some l' ∧
     at_ran_ue_id l' 20 = Some ue' ∧
     at_ue_index l' 2 = Some ue' ∧
     amf_ue_id (ue_ids ue') = 5 ∧
     at_amf_ue_id l' 5 = Some (ue_with 1 10 5) ∧
     at_amf_ue_id l' 5 ≠ Some ue') ∧
  (∃ l' ue',
     update_ue_index 2 1 two_ues = Some l' ∧
     at_ran_ue_id l' 10 = Some ue' ∧
     ue_index (ue_ids ue') = 2 ∧
     at_ue_index l' 2 = Some (ue_with 2 20 1099511627775) ∧
     at_ue_index l' 2 ≠ Some ue').
Proof.
  split; [apply (bool_decide_unpack _); vm_compute; exact I |]. split.
  - eexists. eexists. split; [reflexivity |].
    split; [reflexivity |]. split; [reflexivity |]. split; [reflexivity |].
    split; [reflexivity |]. vm_compute. discriminate.
  - eexists. eexists. split; [reflexivity |].
    split; [reflexivity |]. split; [reflexivity |].
    split; [reflexivity |]. vm_compute. discriminate.
Qed.

(** [update_ue_index] called with the same index twice unbinds the index:
    the [emplace] finds the key present and the [erase] then removes it. *)
Example update_ue_index_same_index :
  ∃ l', update_ue_index 1 1 one_ue = Some l' ∧
        contains_ue_index l' 1 = false ∧
        contains_ran_ue_id l' 10 = true.
Proof. eexists. split; [reflexivity |]. split; reflexivity. Qed.

Lemma identity_updates_keep_lookups_consistent_witness :
  consistent one_ue ∧
  (∃ l', update_amf_ue_id 10 5 one_ue = Some l' ∧ consistent l' ∧
         contains_amf_ue_id l' 5 = true) ∧
  (∃ l', update_ue_index 3 1 one_ue = Some l' ∧ consistent l' ∧
         contains_ue_index l' 1 = false).
Proof.
  assert (consistent one_ue) as Hcons
    by (apply (bool_decide_unpack _); vm_compute; exact I).
  destruct (identity_updates_keep_lookups_consistent one_ue Hcons) as [Hamf Hidx].
  split; [exact Hcons |]. split.
  - eexists. split; [reflexivity |]. split; [| reflexivity].
    apply (Hamf 10 5 _ eq_refl). intros r Hr. vm_compute in Hr. discriminate.
  - eexists. split; [reflexivity |]. split; [| reflexivity].
    apply (Hidx 3 1 _ eq_refl). reflexivity.
Defined.

(** C7, as stated, fails. UE index 1 of [one_ue] is bound to RAN-UE-ID
    10; a device added as (1, 20) and given AMF-UE-ID 5 is still stored
    after [remove_ue_context 1], which releases the context of RAN-UE-ID
    10 instead. *)
Lemma add_ue_bound_index_counterexample :
  ∃ l1 l2 l3,
    add_ue 1 20 one_ue = Some l1 ∧
    update_amf_ue_id 20 5 l1 = Some l2 ∧
    remove_ue_context 1 l2 = Some l3 ∧
    ues l3 !! 20 = Some (ue_with 1 20 5) ∧
    amf_ue_id_to_ran_ue_id l3 !! 5 = Some 20 ∧
    contains_ran_ue_id l3 20 = true ∧
    contains_amf_ue_id l3 5 = true.
Proof.
  eexists. eexists. eexists.
  split; [reflexivity |]. split; [reflexivity |]. split; [reflexivity |].
  split; [reflexivity |]. split; [reflexivity |]. split; reflexivity.
Qed.

Lemma add_update_remove_leaves_no_entry_witness :
  ∃ l1 l2 l3,
    add_ue 2 20 one_ue = Some l1 ∧
    update_amf_ue_id 20 5 l1 = Some l2 ∧
    remove_ue_context 2 l2 = Some l3 ∧
    ue_index_to_ran_ue_id l3 !! 2 = None ∧
    ues l3 !! 20 = None ∧
    amf_ue_id_to_ran_ue_id l3 !! 5 = None ∧
    contains_ue_index l3 2 = false ∧
    contains_ran_ue_id l3 20 = false ∧
    contains_amf_ue_id l3 5 = false.
Proof.
  apply (add_update_remove_leaves_no_entry 2 20 5 one_ue).
  - vm_compute. discriminate.
  - vm_compute. discriminate.
  - vm_compute. discriminate.
  - intros r Hr. vm_compute in Hr. discriminate.
Defined.

Lemma update_amf_ue_id_idempotent_witness :
  ∃ l', update_amf_ue_id 10 5 one_ue = Some l' ∧
        update_amf_ue_id 10 5 l' = Some l'.
Proof.
  eexists. split; [reflexivity |].
  apply (update_amf_ue_id_idempotent 10 5 one_ue). reflexivity.
Defined.

Lemma allocate_ran_ue_id_at_capacity_witness :
  @allocate_ran_ue_id tiny_types 3 two_of_two
  = Some (@ran_ue_id_invalid tiny_types, two_of_two).
Proof.
  apply (@allocate_ran_ue_id_at_capacity tiny_types 3 two_of_two).
  reflexivity.
Defined.

(** The search skips the identifier in use and leaves the counter after
    the one it returns. *)
Example allocate_ran_ue_id_skips_used :
  ∃ l', allocate_ran_ue_id 5 counter_on_used_id = Some (11, l') ∧
        next_ran_ue_id l' = 12.
Proof. eexists. split; reflexivity. Qed.

(** At [ran_ue_id_t::max] the counter restarts from [ran_ue_id_t::min]. *)
Example allocate_ran_ue_id_wraps :
  ∃ l', allocate_ran_ue_id 5 counter_at_max = Some (0, l') ∧
        next_ran_ue_id l' = 1.
Proof. eexists. split; reflexivity. Qed.

Lemma allocate_ran_ue_id_fresh_witness :
  ∃ l',
    allocate_ran_ue_id 5 counter_on_used_id = Some (11, l') ∧
    (∀ idx, ue_index_to_ran_ue_id counter_on_used_id !! idx ≠ Some 11) ∧
    ues l' = ues counter_on_used_id ∧
    next_ran_ue_id l' = 12.
Proof.
  exists (increase_next_ran_ue_id (increase_next_ran_ue_id counter_on_used_id)).
  assert (allocate_ran_ue_id 5 counter_on_used_id
          = Some (11, increase_next_ran_ue_id
                        (increase_next_ran_ue_id counter_on_used_id)))
    as Halloc by reflexivity.
  split; [exact Halloc |].
  destruct (allocate_ran_ue_id_fresh 5 counter_on_used_id 11 _ Halloc)
    as (Hfresh & _ & _ & _ & Hues & Hnext & _).
  - vm_compute. discriminate.
  - split; [exact Hfresh |]. split; [exact Hues | exact Hnext].
Defined.

(** *** The further properties on concrete lists *)

Lemma add_ue_unused_identifiers_witness :
  ∃ l',
    add_ue 2 20 one_ue = Some l' ∧
    consistent l' ∧
    size l' = S (size one_ue) ∧
    at_ue_index l' 2 = Some (new_ue_context 2 20) ∧
    at_ran_ue_id l' 20 = Some (new_ue_context 2 20) ∧
    (∀ i, i ≠ 2 → at_ue_index l' i = at_ue_index one_ue i) ∧
    (∀ r, r ≠ 20 → at_ran_ue_id l' r = at_ran_ue_id one_ue r) ∧
    (∀ a, at_amf_ue_id l' a = at_amf_ue_id one_ue a).
Proof.
  apply (add_ue_unused_identifiers 2 20 one_ue).
  - apply (bool_decide_unpack _). vm_compute. exact I.
  - vm_compute. discriminate.
  - vm_compute. discriminate.
  - reflexivity.
  - reflexivity.
Defined.

Lemma add_ue_consistent_iff_witness :
  (consistent (default one_ue (add_ue 2 20 one_ue)) ↔
   (is_Some (ue_index_to_ran_ue_id one_ue !! 2) ↔ is_Some (ues one_ue !! 20))) ∧
  (is_Some (ue_index_to_ran_ue_id one_ue !! 2) → is_Some (ues one_ue !! 20) →
   default one_ue (add_ue 2 20 one_ue) = one_ue).
Proof.
  apply (add_ue_consistent_iff 2 20 one_ue).
  - apply (bool_decide_unpack _). vm_compute. exact I.
  - reflexivity.
Defined.

Lemma remove_ue_context_releases_witness :
  ∃ l',
    remove_ue_context 1 two_ues = Some l' ∧
    consistent l' ∧
    S (size l') = size two_ues ∧
    contains_ue_index l' 1 = false ∧
    contains_ran_ue_id l' 10 = false ∧
    contains_amf_ue_id l' 5 = false ∧
    (∀ i, i ≠ 1 → at_ue_index l' i = at_ue_index two_ues i) ∧
    (∀ r, r ≠ 10 → at_ran_ue_id l' r = at_ran_ue_id two_ues r) ∧
    (∀ a, a ≠ 5 → at_amf_ue_id l' a = at_amf_ue_id two_ues a).
Proof.
  apply (remove_ue_context_releases 1 10 (ue_with 1 10 5) two_ues).
  - apply (bool_decide_unpack _). vm_compute. exact I.
  - vm_compute. discriminate.
  - reflexivity.
  - reflexivity.
Defined.

Lemma remove_ue_context_twice_witness :
  remove_ue_context 1 (default two_ues (remove_ue_context 1 two_ues))
  = Some (default two_ues (remove_ue_context 1 two_ues)).
Proof.
  apply (remove_ue_context_twice 1 two_ues). reflexivity.
Defined.

Lemma update_ue_index_same_index_unbinds_witness :
  ∃ l',
    update_ue_index 1 1 two_ues = Some l' ∧
    contains_ue_index l' 1 = false ∧
    contains_ran_ue_id l' 10 = true ∧
    size l' = size two_ues ∧
    remove_ue_context 1 l' = Some l'.
Proof.
  apply (update_ue_index_same_index_unbinds 1 10 two_ues).
  - vm_compute. discriminate.
  - reflexivity.
  - eexists. reflexivity.
Defined.

Lemma update_ue_index_there_and_back_witness :
  ∃ l1,
    update_ue_index 3 1 two_ues = Some l1 ∧
    update_ue_index 1 3 l1 = Some two_ues.
Proof.
  apply (update_ue_index_there_and_back 3 1 10 (ue_with 1 10 5) two_ues).
  - apply (bool_decide_unpack _). vm_compute. exact I.
  - vm_compute. discriminate.
  - vm_compute. discriminate.
  - reflexivity.
  - reflexivity.
  - reflexivity.
  - reflexivity.
Defined.

Lemma update_amf_ue_id_last_wins_witness :
  update_amf_ue_id 10 7 two_ues
  = (update_amf_ue_id 10 6 two_ues ≫= update_amf_ue_id 10 7).
Proof.
  apply (update_amf_ue_id_last_wins 10 6 7 two_ues
           (default two_ues (update_amf_ue_id 10 6 two_ues))).
  - reflexivity.
  - reflexivity.
  - lia.
  - reflexivity.
  - intros ue Hue. vm_compute in Hue. injection Hue as <-.
    vm_compute. discriminate.
Defined.

Lemma add_ue_then_remove_restores_witness :
  ∃ l1, add_ue 2 20 one_ue = Some l1 ∧ remove_ue_context 2 l1 = Some one_ue.
Proof.
  apply (add_ue_then_remove_restores 2 20 one_ue).
  - vm_compute. discriminate.
  - vm_compute. discriminate.
  - reflexivity.
  - reflexivity.
Defined.

Lemma size_counts_bound_identifiers_witness :
  size two_ues = base.size (ue_index_to_ran_ue_id two_ues) ∧
  (base.size (amf_ue_id_to_ran_ue_id two_ues) ≤ size two_ues)%nat.
Proof.
  apply (size_counts_bound_identifiers two_ues).
  apply (bool_decide_unpack _). vm_compute. exact I.
Defined.

Lemma allocate_ran_ue_id_first_unused_witness :
  ∃ k : nat,
    11 = Nat.iter k next_id (next_ran_ue_id counter_on_used_id) ∧
    (∀ idx, ue_index_to_ran_ue_id counter_on_used_id !! idx ≠ Some 11) ∧
    ∀ j : nat, (j < k)%nat →
      ∃ idx, ue_index_to_ran_ue_id counter_on_used_id !! idx
             = Some (Nat.iter j next_id (next_ran_ue_id counter_on_used_id)).
Proof.
  assert (allocate_ran_ue_id 5 counter_on_used_id
          = Some (11, increase_next_ran_ue_id
                        (increase_next_ran_ue_id counter_on_used_id)))
    as Halloc by reflexivity.
  apply (allocate_ran_ue_id_first_unused 5 counter_on_used_id 11 _ Halloc).
  vm_compute. discriminate.
Defined.

Lemma allocate_ran_ue_id_finds_identifier_witness :
  ∃ r l',
    allocate_ran_ue_id
      (S (base.size (ue_index_to_ran_ue_id counter_on_used_id)))
      counter_on_used_id = Some (r, l') ∧
    ran_ue_id_min ≤ r ≤ ran_ue_id_max ∧
    (∀ idx, ue_index_to_ran_ue_id counter_on_used_id !! idx ≠ Some r).
Proof.
  apply (allocate_ran_ue_id_finds_identifier counter_on_used_id).
  - simpl. lia.
  - simpl. lia.
  - simpl. lia.
  - vm_compute. reflexivity.
  - vm_compute. discriminate.
Defined.

Lemma allocate_then_add_ue_witness :
  ∃ l2,
    add_ue 2 11 (increase_next_ran_ue_id
                   (increase_next_ran_ue_id counter_on_used_id)) = Some l2 ∧
    consistent l2 ∧
    at_ue_index l2 2 = Some (new_ue_context 2 11) ∧
    ∀ fuel' r' l3,
      allocate_ran_ue_id fuel' l2 = Some (r', l3) →
      r' ≠ ran_ue_id_invalid → r' ≠ 11.
Proof.
  apply (allocate_then_add_ue 5 2 11 counter_on_used_id).
  - apply (bool_decide_unpack _). vm_compute. exact I.
  - reflexivity.
  - vm_compute. discriminate.
  - vm_compute. discriminate.
  - reflexivity.
Defined.

Lemma built_invariants_witness :
  consistent one_ue ∧
  ran_ue_id_min ≤ next_ran_ue_id one_ue ≤ ran_ue_id_max ∧
  ∀ ran ue, ues one_ue !! ran = Some ue → logger ue = ue_ids ue.
Proof.
  apply (built_invariants one_ue).
  - simpl. lia.
  - simpl. lia.
  - apply (built_add_ue 1 10 empty_list).
    + apply built_empty_list.
    + reflexivity.
    + reflexivity.
    + reflexivity.
Defined.

End examples.

End NgapFacts.



(** ** Facts about the slot scheduler *)

Module SchedFacts.
Import Sched.

Local Open Scope N_scope.

Section facts.
Context `{cell_config}.
Implicit Types (ctx : device_context) (store : gmap N device_context).
Implicit Types (lc : logical_channel) (lcs : list logical_channel).
Implicit Types (plan : list tb_entry) (budget capacity d : N).

(** *** The multiplexer *)

Lemma pack_ces_Some ces budget entries remaining :
  pack_ces ces budget = Some (entries, remaining) →
  entries = ce_entries ces ∧ min_viable ces ≤ budget ∧
  remaining = budget - min_viable ces.
Proof.
  revert budget entries remaining.
  induction ces as [| ty ces IH]; intros budget entries remaining Hpack;
    simpl in *.
  - simplify_eq. split; [done |]. lia.
  - destruct (ce_size ty <=? budget) eqn:Hfit; [| done].
    apply N.leb_le in Hfit.
    destruct (pack_ces ces (budget - ce_size ty)) as [[es r]|] eqn:Hrest;
      [| done].
    simplify_eq. destruct (IH _ _ _ Hrest) as (-> & Hle & ->).
    split; [done |]. lia.
Qed.

Lemma pack_ces_fits ces budget :
  min_viable ces ≤ budget →
  pack_ces ces budget = Some (ce_entries ces, budget - min_viable ces).
Proof.
  revert budget. induction ces as [| ty ces IH]; intros budget Hle; simpl in *.
  - by rewrite N.sub_0_r.
  - assert ((ce_size ty <=? budget) = true) as -> by (apply N.leb_le; lia).
    rewrite IH by lia. do 2 f_equal. lia.
Qed.

Lemma pack_inr ctx budget plan :
  pack ctx budget = inr plan ↔
  min_viable (pending_ces ctx) ≤ budget ∧
  plan = ce_entries (pending_ces ctx)
         ++ pack_lcs (channels ctx) (budget - min_viable (pending_ces ctx)).
Proof.
  unfold pack. split.
  - destruct (pack_ces _ _) as [[es r]|] eqn:Hces; [| done].
    intros ?; simplify_eq.
    by destruct (pack_ces_Some _ _ _ _ Hces) as (-> & ? & ->).
  - intros [Hle ->]. by rewrite pack_ces_fits.
Qed.

(** The multiplexer fails exactly when the control elements do not fit. *)
Lemma pack_inl ctx budget e :
  pack ctx budget = inl e ↔
  e = InsufficientBudget ∧ budget < min_viable (pending_ces ctx).
Proof.
  unfold pack. split.
  - destruct (pack_ces _ _) as [[es r]|] eqn:Hces; [done |].
    intros ?; simplify_eq. split; [done |].
    apply N.lt_nge. intros Hle. by rewrite pack_ces_fits in Hces.
  - intros [-> Hlt].
    destruct (pack_ces _ _) as [[es r]|] eqn:Hces; [| done].
    destruct (pack_ces_Some _ _ _ _ Hces) as (_ & ? & _). lia.
Qed.

Lemma plan_bytes_app plan1 plan2 :
  plan_bytes (plan1 ++ plan2) = plan_bytes plan1 + plan_bytes plan2.
Proof.
  induction plan1 as [| e plan1 IH]; simpl; [done |].
  unfold plan_bytes in *. simpl. rewrite IH. lia.
Qed.

Lemma plan_bytes_ce_entries ces : plan_bytes (ce_entries ces) = min_viable ces.
Proof.
  induction ces as [| ty ces IH]; [done |].
  unfold plan_bytes, min_viable in *. simpl. by rewrite IH.
Qed.

Lemma plan_bytes_pack_lcs lcs budget : plan_bytes (pack_lcs lcs budget) ≤ budget.
Proof.
  revert budget. induction lcs as [| lc lcs IH]; intros budget; simpl.
  - unfold plan_bytes. simpl. lia.
  - destruct (budget =? 0) eqn:Hb; [unfold plan_bytes; simpl; lia |].
    destruct (lc_pending lc =? 0); [apply IH |].
    unfold plan_bytes in *. simpl.
    specialize (IH (budget - N.min (lc_pending lc) budget)). lia.
Qed.

(** The plan never exceeds the byte budget (section 4.4, invariant). *)
Lemma pack_within_budget ctx budget plan :
  pack ctx budget = inr plan → plan_bytes plan ≤ budget.
Proof.
  intros [Hle ->]%pack_inr.
  rewrite plan_bytes_app, plan_bytes_ce_entries.
  pose proof (plan_bytes_pack_lcs (channels ctx)
                (budget - min_viable (pending_ces ctx))). lia.
Qed.

(** What leaves the buffers is what the plan schedules. *)
Lemma drain_lcs_conserves lcs budget :
  pending_total (drain_lcs lcs budget) + plan_bytes (pack_lcs lcs budget)
  = pending_total lcs.
Proof.
  revert budget. induction lcs as [| lc lcs IH]; intros budget; simpl; [done |].
  destruct (budget =? 0); [unfold plan_bytes; simpl; lia |].
  destruct (lc_pending lc =? 0) eqn:Hzero;
    unfold pending_total, plan_bytes in *; simpl.
  - rewrite <- (IH budget). lia.
  - rewrite <- (IH (budget - N.min (lc_pending lc) budget)). lia.
Qed.


Lemma unsegmented_need_pos lcs lc :
  lc ∈ lcs → lc_segmentable lc = false → 0 < lc_pending lc →
  0 < unsegmented_need lcs.
Proof.
  intros Hin Hseg Hpending.
  induction lcs as [| lc0 lcs IH]; [by apply not_elem_of_nil in Hin |].
  simpl. apply elem_of_cons in Hin as [<- | Hin].
  - rewrite Hseg. simpl.
    assert ((0 <? lc_pending lc) = true) as -> by (apply N.ltb_lt; lia).
    simpl. lia.
  - specialize (IH Hin).
    assert ((0 <? unsegmented_need lcs) = true) as -> by (apply N.ltb_lt; lia).
    rewrite orb_true_r. lia.
Qed.

(** A budget that covers [unsegmented_need] gives every channel without
    segmentation support its full payload. *)
Lemma pack_lcs_unsegmented_full lcs lc budget :
  unsegmented_need lcs ≤ budget →
  lc ∈ lcs → lc_segmentable lc = false → 0 < lc_pending lc →
  LC_ENTRY (lc_id lc) (lc_pending lc) ∈ pack_lcs lcs budget.
Proof.
  revert budget. induction lcs as [| lc0 lcs IH];
    intros budget Hneed Hin Hseg Hpending;
    [by apply not_elem_of_nil in Hin |].
  simpl in *. apply elem_of_cons in Hin as [<- | Hin].
  - rewrite Hseg in Hneed. simpl in Hneed.
    assert ((0 <? lc_pending lc) = true) as Hpos by (apply N.ltb_lt; lia).
    rewrite Hpos in Hneed. simpl in Hneed.
    assert ((budget =? 0) = false) as -> by (apply N.eqb_neq; lia).
    assert ((lc_pending lc =? 0) = false) as -> by (apply N.eqb_neq; lia).
    rewrite N.min_l by lia. apply elem_of_cons. by left.
  - pose proof (unsegmented_need_pos _ _ Hin Hseg Hpending) as Hlater.
    assert ((0 <? unsegmented_need lcs) = true) as Hpos by (apply N.ltb_lt; lia).
    rewrite Hpos, orb_true_r in Hneed.
    assert ((budget =? 0) = false) as -> by (apply N.eqb_neq; lia).
    destruct (lc_pending lc0 =? 0) eqn:Hzero.
    + apply IH; try done. apply N.eqb_eq in Hzero. lia.
    + rewrite N.min_l by lia. apply elem_of_cons. right.
      apply IH; try done. lia.
Qed.

(** *** The allocation loop *)

(** One proposal either changes nothing or serves its device. *)
Lemma allocate_cons d budget rest served store capacity :
  allocate ((d, budget) :: rest) served store capacity
  = allocate rest served store capacity
  ∨ ∃ ctx addr plan,
      (d ∉ served) ∧
      store !! d = Some ctx ∧
      addressing_of ctx = Some addr ∧
      pack ctx (grow ctx budget) = inr plan ∧
      plan ≠ [] ∧
      allocate ((d, budget) :: rest) served store capacity
      = ({| a_device := d; a_addressing := addr; a_tb_list := [plan] |}
           :: (allocate rest (d :: served)
                 (<[d := consume ctx (grow ctx budget)]> store)
                 (capacity - grow ctx budget)).1,
         (allocate rest (d :: served)
            (<[d := consume ctx (grow ctx budget)]> store)
            (capacity - grow ctx budget)).2).
Proof.
  simpl. case_bool_decide as Hserved; [by left |].
  destruct (store !! d) as [ctx|] eqn:Hctx; [| by left].
  destruct (addressing_of ctx) as [addr|] eqn:Haddr; [| by left].
  destruct (capacity <? grow ctx budget); [by left |].
  destruct (pack ctx (grow ctx budget)) as [e | plan] eqn:Hpack; [by left |].
  case_bool_decide as Hnil; [by left |].
  right. exists ctx, addr, plan. split_and!; try done.
  by destruct (allocate rest _ _ _).
Qed.

(** Every assignment comes from packing the context its device had when the
    loop started, with the grown budget. *)
Lemma allocate_assignment proposals served store capacity a :
  a ∈ (allocate proposals served store capacity).1 →
  (a_device a ∉ served) ∧
  ∃ ctx budget addr plan,
    store !! a_device a = Some ctx ∧
    addressing_of ctx = Some addr ∧
    pack ctx (grow ctx budget) = inr plan ∧
    plan ≠ [] ∧
    a = {| a_device := a_device a; a_addressing := addr; a_tb_list := [plan] |}.
Proof.
  revert served store capacity.
  induction proposals as [| [d budget] rest IH]; intros served store capacity Hin.
  { by apply not_elem_of_nil in Hin. }
  destruct (allocate_cons d budget rest served store capacity)
    as [Hskip | (ctx & addr & plan & Hd & Hctx & Haddr & Hpack & Hne & Hserve)].
  - rewrite Hskip in Hin. exact (IH _ _ _ Hin).
  - rewrite Hserve in Hin. simpl in Hin.
    apply elem_of_cons in Hin as [-> | Hin].
    + simpl. split; [done |]. by exists ctx, budget, addr, plan.
    + apply IH in Hin as (Hnot & ctx' & budget' & addr' & plan' & Hctx' & Hrest).
      apply not_elem_of_cons in Hnot as [Hne_d Hnot].
      split; [done |]. exists ctx', budget', addr', plan'.
      rewrite lookup_insert_ne in Hctx' by done. done.
Qed.


(** A served context keeps its identity and its phase. *)
Lemma allocate_identity proposals served store capacity d ctx' :
  (allocate proposals served store capacity).2 !! d = Some ctx' →
  ∃ ctx, store !! d = Some ctx ∧ same_identity ctx ctx'.
Proof.
  revert served store capacity.
  induction proposals as [| [d0 budget] rest IH]; intros served store capacity Hl.
  { simpl in Hl. exists ctx'. by repeat split. }
  destruct (allocate_cons d0 budget rest served store capacity)
    as [Hskip | (ctx & addr & plan & Hd & Hctx & Haddr & Hpack & Hne & Hserve)].
  - rewrite Hskip in Hl. exact (IH _ _ _ Hl).
  - rewrite Hserve in Hl. simpl in Hl.
    apply IH in Hl as (ctx1 & Hctx1 & Hsame).
    destruct (decide (d0 = d)) as [-> | Hne_d].
    + rewrite lookup_insert_eq in Hctx1. simplify_eq.
      exists ctx. split; [done |]. destruct Hsame as (? & ? & ? & ?).
      by repeat split.
    + rewrite lookup_insert_ne in Hctx1 by done. by exists ctx1.
Qed.

(** *** Events *)

(** An invariant of the context of [d] that every admissible event keeps is
    kept by the drain. *)
Lemma event_drain_invariant (ok : event → Prop) (inv : device_context → Prop)
    events store d :
  (∀ ev st, ok ev → (∀ ctx, st !! d = Some ctx → inv ctx) →
            ∀ ctx, apply_event ev st !! d = Some ctx → inv ctx) →
  Forall ok events →
  (∀ ctx, store !! d = Some ctx → inv ctx) →
  ∀ ctx, event_drain events store !! d = Some ctx → inv ctx.
Proof.
  intros Hstep Hall. revert store. unfold event_drain.
  induction Hall as [| ev events Hev _ IH]; intros store Hinv; simpl; [done |].
  apply IH. by apply Hstep.
Qed.

Lemma advance_ce_unresolved p ty :
  unresolved p = true → unresolved (advance p (CE_ENQUEUED ty)) = true.
Proof. by destruct p, ty. Qed.

(** *** Slots *)

Lemma slot_step_downlink slot events store :
  r_downlink (slot_step slot events store).1
  = (allocate (policy slot (event_drain events store) (slot_capacity slot)) []
       (event_drain events store) (slot_capacity slot)).1.
Proof. unfold slot_step. by destruct (allocate _ _ _ _). Qed.

Lemma slot_step_store slot events store :
  (slot_step slot events store).2
  = (allocate (policy slot (event_drain events store) (slot_capacity slot)) []
       (event_drain events store) (slot_capacity slot)).2.
Proof. unfold slot_step. by destruct (allocate _ _ _ _). Qed.

Lemma run_cons_results slot evs rest store :
  (run slot (evs :: rest) store).1
  = (slot_step slot evs store).1
    :: (run (slot + 1) rest (slot_step slot evs store).2).1.
Proof.
  simpl. destruct (slot_step slot evs store) as [r st]. simpl.
  by destruct (run (slot + 1) rest st).
Qed.


(** An assignment of a slot comes from packing the drained context of its
    device with a grown budget. *)
Lemma slot_step_assignment slot events store a :
  a ∈ r_downlink (slot_step slot events store).1 →
  ∃ ctx budget addr plan,
    event_drain events store !! a_device a = Some ctx ∧
    addressing_of ctx = Some addr ∧
    pack ctx (grow ctx budget) = inr plan ∧
    a_addressing a = addr ∧
    a_tb_list a = [plan].
Proof.
  rewrite slot_step_downlink. intros Hin.
  apply allocate_assignment in Hin
    as (_ & ctx & budget & addr & plan & Hctx & Haddr & Hpack & _ & Ha).
  exists ctx, budget, addr, plan. split_and!; try done; by rewrite Ha.
Qed.

(** No assignment leaves a pending control element behind (section 3,
    invariant): every control element pending for the device is in its
    transport block. *)
Lemma assignment_carries_pending_ces slot events store a ctx ty :
  a ∈ r_downlink (slot_step slot events store).1 →
  event_drain events store !! a_device a = Some ctx →
  ty ∈ pending_ces ctx →
  ∃ plan, a_tb_list a = [plan] ∧ CE_ENTRY ty (ce_size ty) ∈ plan.
Proof.
  intros Ha Hctx Hty.
  apply slot_step_assignment in Ha
    as (c & budget & addr & plan & Hc & _ & Hpack & _ & Htb).
  simplify_eq. apply pack_inr in Hpack as [_ ->].
  eexists. split; [exact Htb |].
  apply elem_of_app. left. unfold ce_entries.
  apply list_elem_of_fmap. by exists ty.
Qed.

(** *** Addressing before the identity confirmation *)

Lemma apply_event_unresolved d t ev store :
  ev ≠ IDENTITY_CONFIRMED d →
  (∀ ctx, store !! d = Some ctx →
          unresolved (admission_phase ctx) = true ∧ temporary_address ctx = t) →
  ∀ ctx, apply_event ev store !! d = Some ctx →
         unresolved (admission_phase ctx) = true ∧ temporary_address ctx = t.
Proof.
  intros Hev Hinv ctx'.
  destruct ev as [d' ty | d' channel bytes | d' | d']; simpl.
  - destruct (decide (d' = d)) as [-> | Hne].
    + rewrite lookup_alter_eq.
      destruct (store !! d) as [ctx|] eqn:Hctx; [| done].
      intros ?; simplify_eq/=. destruct (Hinv _ eq_refl) as [Hun Ht].
      split; [by apply advance_ce_unresolved | done].
    + rewrite lookup_alter_ne by done. apply Hinv.
  - destruct (decide (d' = d)) as [-> | Hne].
    + rewrite lookup_alter_eq.
      destruct (store !! d) as [ctx|] eqn:Hctx; [| done].
      intros ?; simplify_eq/=. by apply Hinv.
    + rewrite lookup_alter_ne by done. apply Hinv.
  - assert (d' ≠ d) by congruence.
    rewrite lookup_alter_ne by done. apply Hinv.
  - intros [_ Hctx]%lookup_delete_Some. by apply Hinv.
Qed.

(** C5. A device whose identity is unresolved is addressed by its temporary
    address in every assignment of every slot for as long as no identity
    confirmation for it arrives, whatever else arrives (further data
    included) and whatever was already sent; the stable address is not used
    in this phase. *)
Theorem temporary_address_until_confirmed slot events store d ctx r a :
  store !! d = Some ctx →
  unresolved (admission_phase ctx) = true →
  Forall (Forall (fun ev => ev ≠ IDENTITY_CONFIRMED d)) events →
  r ∈ (run slot events store).1 →
  a ∈ r_downlink r →
  a_device a = d →
  a_addressing a = TEMPORARY (temporary_address ctx).
Proof.
  intros Hctx Hun Hevents.
  assert (∀ c, store !! d = Some c →
               unresolved (admission_phase c) = true ∧
               temporary_address c = temporary_address ctx) as Hinv.
  { intros c Hc. by simplify_eq. }
  clear Hctx Hun. revert slot store Hinv.
  induction Hevents as [| evs rest Hevs _ IH]; intros slot store Hinv Hr Ha Hd.
  { by apply not_elem_of_nil in Hr. }
  assert (∀ c, event_drain evs store !! d = Some c →
               unresolved (admission_phase c) = true ∧
               temporary_address c = temporary_address ctx) as Hdrained.
  { apply (event_drain_invariant (fun ev => ev ≠ IDENTITY_CONFIRMED d)); try done.
    intros ev st Hev Hst. by apply apply_event_unresolved. }
  rewrite run_cons_results in Hr. apply elem_of_cons in Hr as [-> | Hr].
  - apply slot_step_assignment in Ha
      as (c & budget & addr & plan & Hc & Haddr & _ & <- & _).
    rewrite Hd in Hc. destruct (Hdrained _ Hc) as [Hun Ht].
    unfold addressing_of in Haddr. rewrite <- Ht.
    destruct (admission_phase c); by simplify_eq.
  - apply (IH (slot + 1) (slot_step slot evs store).2); try done.
    intros c Hc. rewrite slot_step_store in Hc.
    apply allocate_identity in Hc as (c0 & Hc0 & _ & Ht & _ & Hp).
    destruct (Hdrained _ Hc0) as [Hun Ht0]. by rewrite Hp, Ht.
Qed.

(** *** Channels without segmentation support *)

(** C3. Whenever a device is assigned a transport block, every logical
    channel of the device that has no segmentation support and has pending
    bytes is scheduled in that block with at least its full pending
    payload: the allocation is grown, the payload is not truncated. *)
Theorem unsegmented_payload_not_truncated slot events store a ctx lc :
  a ∈ r_downlink (slot_step slot events store).1 →
  event_drain events store !! a_device a = Some ctx →
  lc ∈ channels ctx →
  lc_segmentable lc = false →
  0 < lc_pending lc →
  ∃ plan bytes,
    a_tb_list a = [plan] ∧
    LC_ENTRY (lc_id lc) bytes ∈ plan ∧
    lc_pending lc ≤ bytes.
Proof.
  intros Ha Hctx Hlc Hseg Hpending.
  apply slot_step_assignment in Ha
    as (c & budget & addr & plan & Hc & _ & Hpack & _ & Htb).
  simplify_eq. apply pack_inr in Hpack as [Hfit ->].
  eexists. exists (lc_pending lc). split; [exact Htb |]. split; [| lia].
  apply elem_of_app. right.
  apply pack_lcs_unsegmented_full; try done.
  unfold grow in *. lia.
Qed.

(** *** The first transport block of a device with pending control
    elements *)







(** The slot after the slots of [before] is the next one of the run. *)
Lemma run_snoc slot before evs store :
  run slot (before ++ [evs]) store
  = ((run slot before store).1
       ++ [(slot_step (slot + N.of_nat (length before)) evs
              (run slot before store).2).1],
     (slot_step (slot + N.of_nat (length before)) evs
        (run slot before store).2).2).
Proof.
  revert slot store.
  induction before as [| evs0 before IH]; intros slot store.
  - simpl. rewrite N.add_0_r. by destruct (slot_step slot evs store).
  - change ((evs0 :: before) ++ [evs]) with (evs0 :: (before ++ [evs])).
    assert (slot + N.of_nat (length (evs0 :: before))
            = slot + 1 + N.of_nat (length before)) as -> by (simpl; lia).
    cbn [run]. destruct (slot_step slot evs0 store) as [r st].
    rewrite IH. by destruct (run (slot + 1) before st).
Qed.


End facts.

(** *** The scheduler on a concrete cell *)

Section examples.
#[local] Existing Instance example_cell.

(** The control element and a 128-byte message in the first slot, later
    data in the second one, both under the temporary address. *)
Example run_message_then_data :
  (run 0 [[]; [BUFFER_STATE_UPDATE 0 1 500]] (example_store 128)).1
  = [ {| r_slot := 0; r_downlink := [first_assignment] |};
      {| r_slot := 1; r_downlink := [later_assignment] |} ].
Proof. reflexivity. Qed.

(** After the confirmation the stable address is used. *)
Example run_confirmed :
  (run 0 [[IDENTITY_CONFIRMED 0]] (example_store 128)).1
  = [ {| r_slot := 0;
         r_downlink :=
           [ {| a_device := 0; a_addressing := STABLE 1;
                a_tb_list :=
                  [[CE_ENTRY IDENTITY_CONFIRMATION 6; LC_ENTRY 0 128]] |} ] |} ].
Proof. reflexivity. Qed.




Lemma unsegmented_payload_not_truncated_witness :
  ∃ plan bytes,
    a_tb_list first_assignment = [plan] ∧
    LC_ENTRY 0 bytes ∈ plan ∧
    128 ≤ bytes.
Proof.
  apply (unsegmented_payload_not_truncated 0 [] (example_store 128)
           first_assignment (awaiting_device 128)
           (mk_logical_channel 0 false 128)).
  - change (first_assignment ∈ [first_assignment]). apply list_elem_of_here.
  - reflexivity.
  - simpl. apply list_elem_of_here.
  - reflexivity.
  - simpl. lia.
Defined.

Lemma temporary_address_until_confirmed_witness :
  a_addressing later_assignment = TEMPORARY 17921.
Proof.
  apply (temporary_address_until_confirmed 0
           [[]; [BUFFER_STATE_UPDATE 0 1 500]] (example_store 128) 0
           (awaiting_device 128)
           {| r_slot := 1; r_downlink := [later_assignment] |}
           later_assignment).
  - reflexivity.
  - reflexivity.
  - repeat constructor; discriminate.
  - rewrite run_message_then_data. apply list_elem_of_further, list_elem_of_here.
  - simpl. apply list_elem_of_here.
  - reflexivity.
Defined.

End examples.
End SchedFacts.

(** ** Facts about the initial DU setup procedure *)

Module DuSetupFacts.
Import DuSetup.

Section facts.
Context `{du_setup_env}.
Implicit Types (cells good rest : list du_cell_config).
Implicit Types (sched_cfg : scheduler_expert_config).

Lemma added_cells_cons idx du_cfg cells :
  added_cells idx (du_cfg :: cells)
  = ADD_CELL (mac_cell_of idx du_cfg) :: added_cells (idx + 1) cells.
Proof.
  unfold added_cells. rewrite imap_cons. simpl. rewrite N.add_0_r. f_equal.
  apply imap_ext. intros i x _. simpl. do 2 f_equal. lia.
Qed.

(** The loop adds the cells in index order up to the first invalid one. *)
Lemma configure_cells_spec sched_cfg idx cells :
  ((∀ (i : nat) du_cfg, cells !! i = Some du_cfg →
      validate_sched_cell_configuration_request_message
        (sched_cfg_of (idx + N.of_nat i) du_cfg) sched_cfg = None) ∧
   configure_cells sched_cfg idx cells = (added_cells idx cells, RETURNED))
  ∨ ∃ good bad rest cause,
      cells = good ++ bad :: rest ∧
      (∀ (i : nat) du_cfg, good !! i = Some du_cfg →
         validate_sched_cell_configuration_request_message
           (sched_cfg_of (idx + N.of_nat i) du_cfg) sched_cfg = None) ∧
      validate_sched_cell_configuration_request_message
        (sched_cfg_of (idx + N.of_nat (length good)) bad) sched_cfg
      = Some cause ∧
      configure_cells sched_cfg idx cells
      = (added_cells idx good, INVALID_CELL (idx + N.of_nat (length good)) cause).
Proof.
  revert idx. induction cells as [| du_cfg cells IH]; intros idx.
  { left. split; [| done]. intros i c Hc. by rewrite lookup_nil in Hc. }
  simpl.
  destruct (validate_sched_cell_configuration_request_message
              (sched_cfg_of idx du_cfg) sched_cfg) as [cause|] eqn:Hcheck.
  - right. exists [], du_cfg, cells, cause. simpl. rewrite N.add_0_r.
    by split_and!.
  - destruct (IH (idx + 1)%N)
      as [[Hvalid ->] | (good & bad & rest & cause & -> & Hvalid & Hbad & ->)].
    + left. split; [| by rewrite added_cells_cons].
      intros [| i] c Hc; simpl in Hc.
      * simplify_eq. by rewrite N.add_0_r.
      * replace (idx + N.of_nat (S i))%N with (idx + 1 + N.of_nat i)%N by lia.
        by apply Hvalid.
    + right. exists (du_cfg :: good), bad, rest, cause.
      assert (idx + N.of_nat (length (du_cfg :: good))
              = idx + 1 + N.of_nat (length good))%N as Hlen by (simpl; lia).
      rewrite Hlen. split_and!; try done.
      * intros [| i] c Hc; simpl in Hc.
        { simplify_eq. by rewrite N.add_0_r. }
        replace (idx + N.of_nat (S i))%N with (idx + 1 + N.of_nat i)%N by lia.
        by apply Hvalid.
      * by rewrite added_cells_cons.
Qed.

Lemma configure_cells_valid sched_cfg idx cells :
  (∀ (i : nat) du_cfg, cells !! i = Some du_cfg →
     validate_sched_cell_configuration_request_message
       (sched_cfg_of (idx + N.of_nat i) du_cfg) sched_cfg = None) →
  configure_cells sched_cfg idx cells = (added_cells idx cells, RETURNED).
Proof.
  intros Hvalid.
  destruct (configure_cells_spec sched_cfg idx cells)
    as [[_ ->] | (good & bad & rest & cause & -> & _ & Hbad & _)]; [done |].
  rewrite (Hvalid (length good) bad) in Hbad; [done |].
  by rewrite lookup_app_r, Nat.sub_diag.
Qed.

Lemma configure_cells_invalid sched_cfg idx good bad rest cause :
  (∀ (i : nat) du_cfg, good !! i = Some du_cfg →
     validate_sched_cell_configuration_request_message
       (sched_cfg_of (idx + N.of_nat i) du_cfg) sched_cfg = None) →
  validate_sched_cell_configuration_request_message
    (sched_cfg_of (idx + N.of_nat (length good)) bad) sched_cfg = Some cause →
  configure_cells sched_cfg idx (good ++ bad :: rest)
  = (added_cells idx good, INVALID_CELL (idx + N.of_nat (length good)) cause).
Proof.
  revert idx. induction good as [| du_cfg good IH]; intros idx Hvalid Hbad.
  - simpl in *. rewrite N.add_0_r in *. by rewrite Hbad.
  - pose proof (Hvalid 0%nat du_cfg eq_refl) as Hfirst.
    simpl in Hfirst. rewrite N.add_0_r in Hfirst.
    assert (idx + N.of_nat (length (du_cfg :: good))
            = idx + 1 + N.of_nat (length good))%N as Hlen by (simpl; lia).
    rewrite Hlen in *.
    change ((du_cfg :: good) ++ bad :: rest) with (du_cfg :: (good ++ bad :: rest)).
    cbn [configure_cells]. rewrite Hfirst.
    rewrite (IH (idx + 1)%N); [by rewrite added_cells_cons | | done].
    intros i c Hc.
    replace (idx + 1 + N.of_nat i)%N with (idx + N.of_nat (S i))%N by lia.
    by apply Hvalid.
Qed.

Lemma added_cells_no_start idx cells c : START_CELL c ∉ added_cells idx cells.
Proof.
  unfold added_cells. intros (i & x & Heq & _)%elem_of_lookup_imap. done.
Qed.

(** With the F1 setup accepted and every cell valid, the procedure asks
    for the F1 setup, adds the cells to the MAC in index order, each under
    its own index, then starts the cell with index 0 and no other,
    however many cells there are, and returns. *)
Theorem setup_with_valid_cells sched_cfg cells :
  (∀ (i : nat) du_cfg, cells !! i = Some du_cfg → valid_cell sched_cfg i du_cfg) →
  initial_du_setup_procedure sched_cfg cells true
  = (F1_SETUP_REQUEST :: added_cells 0 cells ++ [START_CELL 0], RETURNED).
Proof.
  intros Hvalid. unfold initial_du_setup_procedure. simpl.
  rewrite configure_cells_valid; [done |].
  intros i c Hc. rewrite N.add_0_l. by apply Hvalid.
Qed.

(** With the F1 setup accepted and a first invalid cell, the procedure ends
    in the fatal error for that cell, with its index and the validator's
    cause: the cells before it have been added to the MAC, the cells after
    it are not looked at, and no cell is started. *)
Theorem setup_with_invalid_cell sched_cfg good bad rest cause :
  (∀ (i : nat) du_cfg, good !! i = Some du_cfg → valid_cell sched_cfg i du_cfg) →
  validate_sched_cell_configuration_request_message
    (sched_cfg_of (N.of_nat (length good)) bad) sched_cfg = Some cause →
  initial_du_setup_procedure sched_cfg (good ++ bad :: rest) true
  = (F1_SETUP_REQUEST :: added_cells 0 good,
     INVALID_CELL (N.of_nat (length good)) cause).
Proof.
  intros Hvalid Hbad. unfold initial_du_setup_procedure. simpl.
  rewrite (configure_cells_invalid sched_cfg 0 good bad rest cause).
  - by rewrite N.add_0_l.
  - intros i c Hc. rewrite N.add_0_l. by apply Hvalid.
  - by rewrite N.add_0_l.
Qed.

(** The procedure returns exactly when the F1 setup was accepted and every
    cell is valid; a cell is started only then, and it is the cell with
    index 0; and without an accepted F1 setup no cell reaches the MAC. *)
Theorem setup_activation sched_cfg cells response_success :
  ((initial_du_setup_procedure sched_cfg cells response_success).2 = RETURNED ↔
   response_success = true ∧
   ∀ (i : nat) du_cfg, cells !! i = Some du_cfg → valid_cell sched_cfg i du_cfg) ∧
  (∀ c, START_CELL c ∈ (initial_du_setup_procedure sched_cfg cells response_success).1 ↔
        c = 0%N ∧
        (initial_du_setup_procedure sched_cfg cells response_success).2 = RETURNED) ∧
  (∀ cell, ADD_CELL cell ∈ (initial_du_setup_procedure sched_cfg cells response_success).1 →
           response_success = true).
Proof.
  unfold initial_du_setup_procedure, valid_cell.
  destruct response_success; simpl.
  2: { split_and!.
       - split; [done | by intros [? _]].
       - intros c. split; [| by intros [_ ?]].
         intros [? | Hin%not_elem_of_nil]%elem_of_cons; done.
       - intros cell [? | Hin%not_elem_of_nil]%elem_of_cons; done. }
  destruct (configure_cells_spec sched_cfg 0 cells)
    as [[Hvalid ->] | (good & bad & rest & cause & -> & Hvalid & Hbad & ->)];
    simpl.
  - split_and!; [| | done].
    + split; [| done]. intros _. split; [done |].
      intros i c Hc. specialize (Hvalid i c Hc). by rewrite N.add_0_l in Hvalid.
    + intros c. split.
      * intros [? | [Hin | Hin%list_elem_of_singleton]%elem_of_app]%elem_of_cons;
          [done | by apply added_cells_no_start in Hin | by simplify_eq].
      * intros [-> _]. apply elem_of_cons. right. apply elem_of_app. right.
        by apply list_elem_of_singleton.
  - split_and!; [| | done].
    + split; [done |]. intros [_ Hall]. exfalso.
      rewrite N.add_0_l in Hbad.
      rewrite (Hall (length good) bad) in Hbad; [done |].
      by rewrite lookup_app_r, Nat.sub_diag.
    + intros c. split; [| by intros [_ ?]].
      intros [? | Hin]%elem_of_cons; [done |].
      by apply added_cells_no_start in Hin.
Qed.

End facts.

Section examples.
#[local] Existing Instance example_env.

(** Two cells: both are added, only the first is started. *)
Example setup_two_cells :
  initial_du_setup_procedure tt [20%N; 10%N] true
  = ([F1_SETUP_REQUEST; ADD_CELL (0%N, 20%N); ADD_CELL (1%N, 10%N); START_CELL 0],
     RETURNED).
Proof. reflexivity. Qed.

(** No cell at all: the start of cell 0 is still requested. *)
Example setup_no_cell :
  initial_du_setup_procedure tt [] true
  = ([F1_SETUP_REQUEST; START_CELL 0], RETURNED).
Proof. reflexivity. Qed.

Lemma setup_with_valid_cells_witness :
  initial_du_setup_procedure tt [20%N; 10%N] true
  = (F1_SETUP_REQUEST :: added_cells 0 [20%N; 10%N] ++ [START_CELL 0], RETURNED).
Proof.
  apply (@setup_with_valid_cells example_env tt [20%N; 10%N]).
  intros [| [| i]] c Hc; simpl in Hc; simplify_eq; reflexivity.
Defined.

Lemma setup_with_invalid_cell_witness :
  initial_du_setup_procedure tt ([20%N] ++ 0%N :: [10%N]) true
  = (F1_SETUP_REQUEST :: added_cells 0 [20%N],
     INVALID_CELL (N.of_nat (length [20%N])) "no bandwidth").
Proof.
  apply (@setup_with_invalid_cell example_env tt [20%N] 0%N [10%N] "no bandwidth").
  - intros [| i] c Hc; simpl in Hc; simplify_eq; reflexivity.
  - reflexivity.
Defined.

End examples.
End DuSetupFacts.
